(** * The schema / validation / coercion engine of [src/pydantic/__init__.py]

    A shallow embedding of [ModelMeta.__new__], [BaseModel.__init__],
    [BaseModel.parse_obj], [BaseModel.dict] and their helpers, followed by the
    properties of the engine.

    Python objects are a tagged value type, dictionaries whose order is never
    observed ([__field_defaults__], [__validators__], the keyword arguments
    [data]) are [gmap]s, dictionaries whose order is observed (type hints, a
    class namespace, the result of [dict()]) are association lists.  Module
    globals, through which forward references to model classes are resolved,
    are a table from class names to classes.  Exceptions are a result type and
    calls of user validators are logged in a trace. *)

From Stdlib Require Import String List Bool ZArith Lia Ascii DecimalString.
From stdpp Require Import base option list gmap strings fin_maps.

Local Open Scope string_scope.
Local Open Scope list_scope.

Set Warnings "-register-all".

(** ** Python values *)

Inductive Value : Type :=
| VNone
| VBool (b : bool)
| VInt (z : Z)
| VStr (s : string)
| VList (items : list Value)
| VTuple (items : list Value)
| VDict (entries : list (Value * Value))
  (** an instance of a [BaseModel] subclass: class name and [__dict__] *)
| VInst (cls : string) (attrs : list (string * Value))
  (** any other object (a float, a [Path], a function, a [FieldInfo]):
      the name of its type and its [repr].  Such an object can be neither
      iterated nor asked for its [items]: a set, a range or a mapping that is
      not a [dict] is not a value of this model. *)
| VObj (type_name : string) (repr : string).

(** ** Exceptions, results and the call trace *)

Inductive Exc : Type :=
| ValueError (msg : string)
| TypeError (msg : string)
| AttributeError (msg : string)
| NameError (msg : string)
| OtherError (kind : string) (msg : string).

Inductive Res (A : Type) : Type :=
| Ok (a : A)
| Raise (e : Exc)
  (** the recursion budget of the model ran out *)
| Diverge.
Arguments Ok {A} a.
Arguments Raise {A} e.
Arguments Diverge {A}.

(** One call [func(cls, value)] of a registered validator. *)
Record Event : Type := Called { ev_func : string; ev_cls : string; ev_arg : Value }.

Definition M (A : Type) : Type := (list Event * Res A)%type.

Definition ret {A} (a : A) : M A := ([], Ok a).
Definition raise {A} (e : Exc) : M A := ([], Raise e).
Definition lift {A} (r : Res A) : M A := ([], r).

Definition bind {A B} (m : M A) (k : A -> M B) : M B :=
  match m with
  | (t, Ok a) => let '(t', r) := k a in (t ++ t', r)
  | (t, Raise e) => (t, Raise e)
  | (t, Diverge) => (t, Diverge)
  end.

Notation "x <- m ;; k" := (bind m (fun x => k))
  (at level 100, m at next level, right associativity).

(** A [for] loop that builds a list, left to right, stopping at the first
    exception: a list comprehension. *)
Fixpoint mapM {A B} (f : A -> M B) (l : list A) : M (list B) :=
  match l with
  | [] => ret []
  | x :: r => y <- f x ;; ys <- mapM f r ;; ret (y :: ys)
  end.

(** A [for] loop that updates an accumulator. *)
Fixpoint foldM {A B} (f : A -> B -> M A) (l : list B) (acc : A) : M A :=
  match l with
  | [] => ret acc
  | x :: r => acc' <- f acc x ;; foldM f r acc'
  end.

(** ** Insertion-ordered dictionaries *)

(** [d[k]] and [d[k] = v] on a dictionary with string keys: an existing key
    keeps its position, a new key goes last. *)
Fixpoint odict_get {A} (d : list (string * A)) (k : string) : option A :=
  match d with
  | [] => None
  | (k', v) :: r => if String.eqb k' k then Some v else odict_get r k
  end.

Fixpoint odict_set {A} (d : list (string * A)) (k : string) (v : A) : list (string * A) :=
  match d with
  | [] => [(k, v)]
  | (k', v') :: r => if String.eqb k' k then (k', v) :: r else (k', v') :: odict_set r k v
  end.

(** ** Type hints *)

(** What [typing.get_origin] returns, or what an [__origin__] attribute holds. *)
Inductive Origin : Type :=
| OUnion            (* typing.Union *)
| OOptional         (* typing.Optional *)
| Olist | OList     (* list, typing.List *)
| Otuple | OTuple   (* tuple, typing.Tuple *)
| Odict | ODict     (* dict, typing.Dict *)
| OLiteral          (* typing.Literal *)
| OOther (name : string).   (* e.g. collections.abc.Sequence *)

Inductive Hint : Type :=
| HNoneType                       (* type(None) *)
| HAny                            (* typing.Any *)
| HOptional                       (* bare typing.Optional *)
| HPlain (name : string)          (* int, str, Path, Ellipsis, ...: no origin, no args, not a model *)
| HModel (name : string)          (* a subclass of BaseModel, resolved through the module globals *)
| HAlias (origin : Origin) (args : list Hint)   (* a subscripted generic: List[T], Union[...], ... *)
| HLiteral (allowed : list Value) (* Literal[...]: its arguments are values *)
  (** an object unknown to [typing] that carries [__origin__] ([None] when the
      attribute is missing or is None) and [__args__] *)
| HDuck (dunder_origin : option Origin) (dunder_args : list Hint).

Definition get_origin (hint : Hint) : option Origin :=
  match hint with
  | HAlias o _ => Some o
  | HLiteral _ => Some OLiteral
  | _ => None
  end.

(** The arguments of a [Literal] are values; no branch that reads [args]
    applies to the origin [Literal], so they are not listed here. *)
Definition get_args (hint : Hint) : list Hint :=
  match hint with
  | HAlias _ a => a
  | _ => []
  end.

Definition is_NoneType (h : Hint) : bool :=
  match h with HNoneType => true | _ => false end.

Definition origin_is (o : option Origin) (x : Origin) : bool :=
  match o, x with
  | Some OUnion, OUnion | Some OOptional, OOptional => true
  | _, _ => false
  end.

(** [origin in {list, List, tuple, Tuple}] *)
Definition origin_in_sequences (o : option Origin) : bool :=
  match o with
  | Some Olist | Some OList | Some Otuple | Some OTuple => true
  | _ => false
  end.

(** [origin in {dict, Dict}] *)
Definition origin_in_mappings (o : option Origin) : bool :=
  match o with
  | Some Odict | Some ODict => true
  | _ => false
  end.

(** ** Field declarations and validators *)

(** [MISSING] is the absent default; [default_factory] holds the outcome of
    calling the zero-argument factory. *)
Record FieldInfo : Type := mkFieldInfo {
  fi_default : option Value;
  fi_default_factory : option (Res Value)
}.

(** [Field(default=MISSING, default_factory=None)]; further keyword arguments are dropped *)
Definition Field (default_ : option Value) (default_factory : option (Res Value)) : FieldInfo :=
  mkFieldInfo default_ default_factory.

(** A function decorated with [@validator(f1, ..., fn, pre=...)]: the decorator
    sets [__validator_fields__] and [__validator_pre__] on it.  The function
    is called as [func(cls, value)]. *)
Record Validator : Type := mkValidator {
  v_name : string;
  v_fields : list string;
  v_pre : bool;
  v_func : string -> Value -> Res Value
}.

(** What a class body binds a name to. *)
Inductive NsObj : Type :=
| NsFieldInfo (fi : FieldInfo)       (* x: T = Field(...) *)
| NsValue (v : Value)                (* x: T = <a value that is not callable> *)
| NsCallable (name : string)         (* a method, or any other callable *)
| NsValidator (v : Validator).       (* a function carrying __validator_fields__ *)

Definition is_FieldInfo (o : NsObj) : bool :=
  match o with NsFieldInfo _ => true | _ => false end.

Definition callable (o : NsObj) : bool :=
  match o with NsCallable _ | NsValidator _ => true | _ => false end.

(** ** Classes *)

(** Every shape has one base (the repository's models all do, and spec
    section 3 has single inheritance only), so [bases] is the tuple of that
    one base, or empty for [BaseModel] itself. *)
Inductive Class : Type := mkClass {
  cls_name : string;
  cls_base : option Class;
  cls_annotations : list (string * Hint);
  cls_namespace : list (string * NsObj);
  field_defaults_of : gmap string FieldInfo;                  (* __field_defaults__ *)
  validators_of : gmap string (list (Validator * bool))       (* __validators__ *)
}.

Definition bases_of (base : option Class) : list Class :=
  match base with Some b => [b] | None => [] end.

(** [validators.setdefault(key, []).extend(funcs)] for every item of
    [base_validators] *)
Definition extend_validators
    (validators base_validators : gmap string (list (Validator * bool)))
  : gmap string (list (Validator * bool)) :=
  union_with (fun funcs0 funcs => Some (funcs0 ++ funcs)) validators base_validators.

(** [validators.setdefault(field, []).append((obj, pre))] *)
Definition append_validator
    (validators : gmap string (list (Validator * bool))) (field : string)
    (entry : Validator * bool) : gmap string (list (Validator * bool)) :=
  <[field := default [] (validators !! field) ++ [entry]]> validators.

Definition ModelMeta_new (name : string) (base : option Class)
    (namespace : list (string * NsObj)) (annotations : list (string * Hint)) : Class :=
  (* for base in bases: ... *)
  let '(field_defaults, validators) :=
    fold_left
      (fun '(fd, vs) b => (field_defaults_of b ∪ fd, extend_validators vs (validators_of b)))
      (bases_of base) (∅, ∅) in
  (* for attr, value in list(namespace.items()): FieldInfo values are
     registered and popped *)
  let field_defaults :=
    fold_left
      (fun fd '(attr, value) =>
         match value with NsFieldInfo fi => <[attr := fi]> fd | _ => fd end)
      namespace field_defaults in
  let namespace := List.filter (fun '(_, value) => negb (is_FieldInfo value)) namespace in
  (* for attr, hint in annotations.items(): plain defaults *)
  let field_defaults :=
    fold_left
      (fun fd '(attr, _) =>
         match fd !! attr with
         | Some _ => fd                                   (* continue *)
         | None =>
             match odict_get namespace attr with
             | Some (NsValue candidate) => <[attr := mkFieldInfo (Some candidate) None]> fd
             | _ => fd
             end
         end)
      annotations field_defaults in
  (* for attr, obj in namespace.items(): validators *)
  let validators :=
    fold_left
      (fun vs '(_, obj) =>
         match obj with
         | NsValidator f =>
             fold_left (fun vs field => append_validator vs field (f, v_pre f)) (v_fields f) vs
         | _ => vs
         end)
      namespace validators in
  mkClass name base annotations namespace field_defaults validators.

(** [class BaseModel(metaclass=ModelMeta)]: two annotations without values
    (lines 82-83) and the methods. *)
Definition BaseModel : Class :=
  ModelMeta_new "BaseModel" None
    [("__init__", NsCallable "__init__"); ("parse_obj", NsCallable "parse_obj");
     ("dict", NsCallable "dict"); ("json", NsCallable "json");
     ("_apply_validators", NsCallable "_apply_validators");
     ("_coerce_type", NsCallable "_coerce_type");
     ("_allows_none", NsCallable "_allows_none");
     ("_export_value", NsCallable "_export_value");
     ("update_forward_refs", NsCallable "update_forward_refs")]
    [("__field_defaults__", HAlias ODict [HPlain "str"; HPlain "FieldInfo"]);
     ("__validators__",
      HAlias ODict [HPlain "str";
                    HAlias OList [HAlias OTuple [HPlain "ValidatorFunc"; HPlain "bool"]]])].

(** [type(x).__mro__] without [object]: the class, then its ancestors. *)
Fixpoint mro (c : Class) : list Class :=
  match c with
  | mkClass _ base _ _ _ _ =>
      c :: match base with Some b => mro b | None => [] end
  end.

(** ** [typing.get_type_hints] *)

(** The module globals: the model classes by name. *)
Abbreviation Globals := (gmap string Class).

(** Evaluating an annotation resolves every name in it; a name of a model
    class that the module does not define is a [NameError]. *)
Fixpoint unresolved (globals : Globals) (hint : Hint) : option string :=
  let fix first (l : list Hint) : option string :=
    match l with
    | [] => None
    | h :: r => match unresolved globals h with Some n => Some n | None => first r end
    end in
  match hint with
  | HModel n => match globals !! n with Some _ => None | None => Some n end
  | HAlias _ a => first a
  | HDuck _ a => first a
  | _ => None
  end.

Definition eval_annotation (globals : Globals) (hint : Hint) : Res Hint :=
  match unresolved globals hint with
  | Some n => Raise (NameError ("name '" ++ n ++ "' is not defined"))
  | None => Ok hint
  end.

(** [hints = {}; for base in reversed(obj.__mro__): for name, value in
    base.__annotations__.items(): hints[name] = eval(value)] *)
Fixpoint update_hints (globals : Globals) (hints ann : list (string * Hint))
  : Res (list (string * Hint)) :=
  match ann with
  | [] => Ok hints
  | (name, value) :: r =>
      match eval_annotation globals value with
      | Ok h => update_hints globals (odict_set hints name h) r
      | Raise e => Raise e
      | Diverge => Diverge
      end
  end.

Fixpoint hints_of_mro (globals : Globals) (hints : list (string * Hint))
    (reversed_mro : list Class) : Res (list (string * Hint)) :=
  match reversed_mro with
  | [] => Ok hints
  | b :: r =>
      match update_hints globals hints (cls_annotations b) with
      | Ok hints' => hints_of_mro globals hints' r
      | Raise e => Raise e
      | Diverge => Diverge
      end
  end.

Definition get_type_hints (globals : Globals) (c : Class) : Res (list (string * Hint)) :=
  hints_of_mro globals [] (rev (mro c)).

(** ** Validators and coercion *)

Definition _allows_none (hint : Hint) : bool :=
  let origin := get_origin hint in
  let args := get_args hint in
  if origin_is origin OUnion && existsb is_NoneType args then true
  else if match hint with HOptional | HAny => true | _ => false end then true
  else if origin_is origin OOptional then true
  else false.

(** [func(cls, value)] *)
Definition call_validator (cls : Class) (func : Validator) (value : Value) : M Value :=
  ([Called (v_name func) (cls_name cls) value], v_func func (cls_name cls) value).

Definition _apply_validators (cls : Class) (name : string) (value : Value) (pre : bool)
  : M Value :=
  foldM
    (fun value '(func, is_pre) =>
       if Bool.eqb is_pre pre then call_validator cls func value else ret value)
    (default [] (validators_of cls !! name)) value.

Definition is_None (v : Value) : bool :=
  match v with VNone => true | _ => false end.

(** The characters of a string, as it iterates over them. *)
Fixpoint chars (s : string) : list Value :=
  match s with
  | EmptyString => []
  | String c r => VStr (String c EmptyString) :: chars r
  end.

(** [type(value).__name__] *)
Definition type_name (value : Value) : string :=
  match value with
  | VNone => "NoneType"
  | VBool _ => "bool"
  | VInt _ => "int"
  | VStr _ => "str"
  | VList _ => "list"
  | VTuple _ => "tuple"
  | VDict _ => "dict"
  | VInst c _ => c
  | VObj t _ => t
  end.

(** [for item in value].  [BaseModel] defines neither [__iter__] nor
    [__getitem__], so an instance cannot be iterated. *)
Definition iterate (value : Value) : M (list Value) :=
  match value with
  | VList l | VTuple l => ret l
  | VStr s => ret (chars s)
  | VDict kvs => ret (map fst kvs)
  | _ => raise (TypeError ("'" ++ type_name value ++ "' object is not iterable"))
  end.

(** [value.items()]: the attribute is looked up, then called.  On an instance
    the attribute is a field called [items], if there is one, and what a field
    holds is data, which cannot be called (a shape whose body binds [items] to
    a method is not modelled). *)
Definition items (value : Value) : M (list (Value * Value)) :=
  match value with
  | VDict kvs => ret kvs
  | VInst c attrs =>
      match odict_get attrs "items" with
      | Some v => raise (TypeError ("'" ++ type_name v ++ "' object is not callable"))
      | None => raise (AttributeError ("'" ++ c ++ "' object has no attribute 'items'"))
      end
  | _ => raise (AttributeError ("'" ++ type_name value ++ "' object has no attribute 'items'"))
  end.

(** Keys of a dictionary: hashable values, compared with [==] (under which
    [True == 1]). *)
Fixpoint hashable (v : Value) : bool :=
  match v with
  | VList _ | VDict _ => false
  | VTuple l => (fix all (l : list Value) : bool :=
                   match l with [] => true | x :: r => hashable x && all r end) l
  | _ => true
  end.

Fixpoint key_eqb (a b : Value) : bool :=
  match a, b with
  | VNone, VNone => true
  | VBool x, VBool y => Bool.eqb x y
  | VInt x, VInt y => Z.eqb x y
  | VBool x, VInt y | VInt y, VBool x => Z.eqb (if x then 1 else 0) y
  | VStr x, VStr y => String.eqb x y
  | VTuple l, VTuple l' =>
      (fix all2 (l l' : list Value) : bool :=
         match l, l' with
         | [], [] => true
         | x :: r, y :: r' => key_eqb x y && all2 r r'
         | _, _ => false
         end) l l'
  | VInst c _, VInst c' _ => false   (* identity: two instances are never the same key *)
  | VObj t x, VObj t' y => String.eqb t t' && String.eqb x y
  | _, _ => false
  end.

Fixpoint dict_setitem (d : list (Value * Value)) (k v : Value) : list (Value * Value) :=
  match d with
  | [] => [(k, v)]
  | (k', v') :: r => if key_eqb k' k then (k', v) :: r else (k', v') :: dict_setitem r k v
  end.

Definition isinstance (globals : Globals) (value : Value) (model : string) : bool :=
  match value with
  | VInst c _ =>
      match globals !! c with
      | Some k => existsb (fun b => String.eqb (cls_name b) model) (mro k)
      | None => false
      end
  | _ => false
  end.

Definition is_dict (v : Value) : bool :=
  match v with VDict _ => true | _ => false end.

Section Coercion.
Variable globals : Globals.
(** [hint.parse_obj(value)] *)
Variable parse_obj : Class -> Value -> M Value.

(** Lines 157-165, for the [origin] and [args] in force there. *)
Definition coerce_containers (coerce : Hint -> Value -> M Value)
    (origin : Origin) (args : list Hint) (value : Value) : M Value :=
  if origin_in_sequences (Some origin) && negb (Nat.eqb (length args) 0) then
    (* [cls._coerce_type(name, args[0], item) for item in value] *)
    match args with
    | T :: _ =>
        l <- iterate value ;;
        r <- mapM (coerce T) l ;;
        ret (VList r)
    | [] => ret value
    end
  else if origin_in_mappings (Some origin) && Nat.eqb (length args) 2 then
    match args with
    | [key_type; value_type] =>
        kvs <- items value ;;
        d <- foldM
               (fun d '(key, val) =>
                  k <- coerce key_type key ;;
                  v <- coerce value_type val ;;
                  if hashable k then ret (dict_setitem d k v)
                  else raise (TypeError ("unhashable type: '" ++ type_name k ++ "'")%string))
               kvs [] ;;
        ret (VDict d)
    | _ => ret value
    end
  else ret value.

(** [_coerce_type(cls, name, hint, value)]; [cls] and [name] are only
    handed on to the recursive calls.  The cases follow the kind of object
    [hint] is, each guarded by the tests of the source in their order. *)
Fixpoint _coerce_type (hint : Hint) (value : Value) {struct hint} : M Value :=
  match hint with
  | HAlias origin args =>
      if origin_is (Some origin) OUnion && existsb is_NoneType args then
        (* lines 134-139 *)
        if is_None value then ret VNone
        else
          (* target = non_none[0] if non_none else Any; coercing to Any
             returns the value *)
          (fix to_first_non_none (l : list Hint) : M Value :=
             match l with
             | [] => ret value
             | arg :: r =>
                 if is_NoneType arg then to_first_non_none r
                 else _coerce_type arg value
             end) args
      else if origin_is (Some origin) OOptional then
        (* lines 140-144 *)
        match args with
        | [] => raise (OtherError "IndexError" "tuple index out of range")
        | inner :: _ => if is_None value then ret VNone else _coerce_type inner value
        end
      else
        (* origin is not None, and an alias is not a class: lines 157-165 *)
        coerce_containers _coerce_type origin args value
  | HDuck (Some origin) args =>
      (* get_origin gives None; lines 145-147 read the attributes *)
      coerce_containers _coerce_type origin args value
  | HDuck None _ =>
      (* lines 148-151 return the value when __args__ is not empty, line 165
         when it is *)
      ret value
  | HModel model =>
      (* lines 152-156, then line 165 *)
      match globals !! model with
      | Some k =>
          if isinstance globals value model then ret value
          else if is_dict value then parse_obj k value
          else ret value
      | None => raise (NameError ("name '" ++ model ++ "' is not defined"))
      end
  | HLiteral _ | HNoneType | HAny | HOptional | HPlain _ =>
      ret value
  end.

(** ** [BaseModel.__init__] *)

Definition MissingFieldError (name : string) (cls : Class) : Exc :=
  ValueError ("Missing required field '" ++ name ++ "' for " ++ cls_name cls).

(** Lines 90-102: the value of the field before validation. *)
Definition resolve_value (cls : Class) (data : gmap string Value)
    (name : string) (hint : Hint) : M Value :=
  match data !! name with
  | Some value => ret value
  | None =>
      match
        match field_defaults_of cls !! name with
        | Some field_info =>
            match fi_default field_info with
            | Some d => Some (Ok d)
            | None => fi_default_factory field_info
            end
        | None => None
        end
      with
      | Some made => lift made
      | None =>
          if _allows_none hint then ret VNone
          else raise (MissingFieldError name cls)
      end
  end.

(** Lines 90-105: one round of the loop, up to the value to store. *)
Definition init_field (cls : Class) (data : gmap string Value)
    (name : string) (hint : Hint) : M Value :=
  value <- resolve_value cls data name hint ;;
  value <- _apply_validators cls name value true ;;
  value <- _coerce_type hint value ;;
  _apply_validators cls name value false.

Definition startswith (prefix name : string) : bool := String.prefix prefix name.

(** The loop of lines 87-106 over the attributes set so far. *)
Definition init_loop (cls : Class) (data : gmap string Value)
    (hints : list (string * Hint)) (attrs : list (string * Value))
  : M (list (string * Value)) :=
  foldM
    (fun attrs '(name, hint) =>
       if startswith "__" name then ret attrs
       else
         value <- init_field cls data name hint ;;
         ret (odict_set attrs name value))
    hints attrs.

Definition init_body (cls : Class) (data : gmap string Value) : M Value :=
  hints <- lift (get_type_hints globals cls) ;;
  attrs <- init_loop cls data hints [] ;;
  ret (VInst (cls_name cls) attrs).
End Coercion.

(** [parse_obj]'s call of [cls] with [data] unpacked: the keys of [data] become keyword arguments, so they must
    be strings, and none may be the name of the parameter [self]. *)
Fixpoint keywords (kvs : list (Value * Value)) : Res (list (string * Value)) :=
  match kvs with
  | [] => Ok []
  | (VStr k, v) :: r =>
      match keywords r with
      | Ok kw => Ok ((k, v) :: kw)
      | other => other
      end
  | _ => Raise (TypeError "keywords must be strings")
  end.

Definition call_with_keywords (init : Class -> gmap string Value -> M Value)
    (cls : Class) (data : Value) : M Value :=
  match data with
  | VDict kvs =>
      kw <- lift (keywords kvs) ;;
      if existsb (fun '(k, _) => String.eqb k "self") kw then
        raise (TypeError "BaseModel.__init__() got multiple values for argument 'self'")
      else init cls (list_to_map kw)
  | _ => raise (TypeError "argument after ** must be a mapping")
  end.

(** [__init__(self, **data)], with a budget for the depth of nested
    construction. *)
Fixpoint __init__ (fuel : nat) (globals : Globals) (cls : Class)
    (data : gmap string Value) : M Value :=
  match fuel with
  | O => lift Diverge
  | S n => init_body globals (call_with_keywords (__init__ n globals)) cls data
  end.

Definition parse_obj (fuel : nat) (globals : Globals) (cls : Class) (data : Value) : M Value :=
  call_with_keywords (__init__ fuel globals) cls data.

(** ** [BaseModel.dict] *)

(** The two registries as the objects that [getattr] finds on the class
    (lines 76-77 store them in the namespace of every class).  The entries
    come in the order of the keys, not in the order of registration, and a
    [FieldInfo] or a function is shown by its name: what is modelled is which
    keys the registries hold and what kind of object stands under each. *)
Definition field_defaults_value (fd : gmap string FieldInfo) : Value :=
  VDict ((fun '(k, _) => (VStr k, VObj "FieldInfo" k)) <$> map_to_list fd).

Definition validators_value (vs : gmap string (list (Validator * bool))) : Value :=
  VDict ((fun '(k, funcs) =>
            (VStr k,
             VList ((fun '(f, pre) => VTuple [VObj "function" (v_name f); VBool pre]) <$> funcs)))
         <$> map_to_list vs).

(** An attribute looked up on the classes of the MRO. *)
Fixpoint class_getattr (classes : list Class) (name : string) : option Value :=
  match classes with
  | [] => None
  | c :: r =>
      if String.eqb name "__field_defaults__" then Some (field_defaults_value (field_defaults_of c))
      else if String.eqb name "__validators__" then Some (validators_value (validators_of c))
      else
        match odict_get (cls_namespace c) name with
        | Some (NsValue v) => Some v
        | Some (NsCallable n) => Some (VObj "method" n)
        | Some (NsValidator f) => Some (VObj "method" (v_name f))
        | Some (NsFieldInfo _) | None => class_getattr r name
        end
  end.

(** [getattr(self, name)]: the instance's own attributes, then its class. *)
Definition getattr (globals : Globals) (self : Value) (name : string) : M Value :=
  match self with
  | VInst c attrs =>
      match odict_get attrs name with
      | Some v => ret v
      | None =>
          match globals !! c with
          | Some cls =>
              match class_getattr (mro cls) name with
              | Some v => ret v
              | None => raise (AttributeError ("object has no attribute '" ++ name ++ "'"))
              end
          | None => raise (AttributeError ("object has no attribute '" ++ name ++ "'"))
          end
      end
  | _ => raise (AttributeError ("object has no attribute '" ++ name ++ "'"))
  end.

(** [_export_value(value)], with [value.dict()] for an instance given. *)
Fixpoint _export_value (dict_of : Value -> M Value) (value : Value) {struct value} : M Value :=
  match value with
  | VInst _ _ => dict_of value
  | VList l => r <- mapM (_export_value dict_of) l ;; ret (VList r)
  | VDict kvs =>
      r <- mapM (fun '(k, v) => e <- _export_value dict_of v ;; ret (k, e)) kvs ;;
      ret (VDict r)
  | _ => ret value
  end.

(** The keys of the result are the strings [name]. *)
Definition str_keys (d : list (string * Value)) : list (Value * Value) :=
  (fun '(k, v) => (VStr k, v)) <$> d.

(** [self.dict()], with a budget for the depth of nested instances. *)
Fixpoint dict (fuel : nat) (globals : Globals) (self : Value) : M Value :=
  match fuel with
  | O => lift Diverge
  | S n =>
      match self with
      | VInst c _ =>
          match globals !! c with
          | Some cls =>
              hints <- lift (get_type_hints globals cls) ;;
              result <- foldM
                          (fun result '(name, _) =>
                             value <- getattr globals self name ;;
                             exported <- _export_value (dict n globals) value ;;
                             ret (odict_set result name exported))
                          hints [] ;;
              ret (VDict (str_keys result))
          | None => raise (NameError ("name '" ++ c ++ "' is not defined"))
          end
      | _ => raise (AttributeError "object has no attribute 'dict'")
      end
  end.

(** ** [BaseModel.json] *)

(** Sequencing of results that log no call. *)
Definition rbind {A B} (r : Res A) (k : A -> Res B) : Res B :=
  match r with
  | Ok a => k a
  | Raise e => Raise e
  | Diverge => Diverge
  end.

(** [int.__repr__] *)
Definition decimal (z : Z) : string := NilZero.string_of_int (Z.to_int z).

(** What the encoder writes for a float, given its [repr]. *)
Definition float_repr (r : string) : string :=
  if String.eqb r "nan" then "NaN"
  else if String.eqb r "inf" then "Infinity"
  else if String.eqb r "-inf" then "-Infinity"
  else r.

Definition join (sep : string) (parts : list string) : string :=
  match parts with
  | [] => ""
  | p :: rest => fold_left (fun acc q => (acc ++ sep ++ q)%string) rest p
  end.

Section Json.
(** The escaping of a string by the [json] library. *)
Variable encode_basestring_ascii : string -> string.

(** The key of a member: a str, or a float, a boolean, None or an integer
    turned into a str; any other key is refused. *)
Definition json_key (k : Value) : Res string :=
  match k with
  | VStr s => Ok s
  | VObj t r =>
      if String.eqb t "float" then Ok (float_repr r)
      else Raise (TypeError "keys must be str, int, float, bool or None")
  | VBool true => Ok "true"
  | VBool false => Ok "false"
  | VNone => Ok "null"
  | VInt z => Ok (decimal z)
  | _ => Raise (TypeError "keys must be str, int, float, bool or None")
  end.

(** [json.dumps(obj)] with the default options. *)
Fixpoint json_dumps (v : Value) : Res string :=
  match v with
  | VNone => Ok "null"
  | VBool true => Ok "true"
  | VBool false => Ok "false"
  | VInt z => Ok (decimal z)
  | VStr s => Ok (encode_basestring_ascii s)
  | VList l | VTuple l =>
      rbind
        ((fix elements (l : list Value) : Res (list string) :=
            match l with
            | [] => Ok []
            | x :: r =>
                rbind (json_dumps x) (fun s => rbind (elements r) (fun ss => Ok (s :: ss)))
            end) l)
        (fun ss => Ok ("[" ++ join ", " ss ++ "]")%string)
  | VDict kvs =>
      rbind
        ((fix members (kvs : list (Value * Value)) : Res (list string) :=
            match kvs with
            | [] => Ok []
            | (k, x) :: r =>
                rbind (json_key k) (fun ks =>
                rbind (json_dumps x) (fun s =>
                rbind (members r) (fun ss =>
                Ok ((encode_basestring_ascii ks ++ ": " ++ s)%string :: ss))))
            end) kvs)
        (fun ss => Ok ("{" ++ join ", " ss ++ "}")%string)
  | VInst c _ => Raise (TypeError ("Object of type " ++ c ++ " is not JSON serializable"))
  | VObj t r =>
      if String.eqb t "float" then Ok (float_repr r)
      else Raise (TypeError ("Object of type " ++ t ++ " is not JSON serializable"))
  end.

(** [json.dumps(self.dict())] *)
Definition json (fuel : nat) (globals : Globals) (self : Value) : M string :=
  d <- dict fuel globals self ;;
  lift (json_dumps d).
End Json.

(** ** The configuration loader: [_unwrap_section] and [_parse_scalar] *)

(** [d.get(k)] *)
Fixpoint dict_get (d : list (Value * Value)) (k : Value) : option Value :=
  match d with
  | [] => None
  | (k', v) :: r => if key_eqb k' k then Some v else dict_get r k
  end.

Definition _unwrap_section (data : Value) (key : string) : Res Value :=
  match data with
  | VDict kvs =>
      match dict_get kvs (VStr key) with
      | Some (VDict section) => Ok (VDict section)
      | _ => Ok data
      end
  | _ => Raise (AttributeError "object has no attribute 'get'")
  end.

(** [str.lower] on the letters A-Z.  The tests made on the lowered text are
    equality with null, ~, true and false and the presence of the letter e,
    and no character outside A-Z lowers to a letter of these. *)
Definition lower_char (c : ascii) : ascii :=
  let n := nat_of_ascii c in
  if (65 <=? n)%nat && (n <=? 90)%nat then ascii_of_nat (n + 32) else c.

Fixpoint lower (s : string) : string :=
  match s with
  | EmptyString => EmptyString
  | String c r => String (lower_char c) (lower r)
  end.

(** [s.endswith(suffix)]: [s] or one of its tails is [suffix]. *)
Fixpoint endswith (suffix s : string) : bool :=
  String.eqb s suffix ||
  match s with
  | EmptyString => false
  | String _ r => endswith suffix r
  end.

(** [c in s] for a character [c] *)
Fixpoint occurs (c : ascii) (s : string) : bool :=
  match s with
  | EmptyString => false
  | String c' r => Ascii.eqb c' c || occurs c r
  end.

(** [value[1:-1]] *)
Definition strip_ends (value : string) : string :=
  String.substring 1 (String.length value - 2) value.

Definition dquote : string := String (ascii_of_nat 34) EmptyString.
Definition squote : string := String (ascii_of_nat 39) EmptyString.

Section ParseScalar.
(** [float(value)] and [int(value)], with None for [ValueError], and
    [_parse_inline_structure], which rests on [re] and [ast.literal_eval]. *)
Variable py_float py_int : string -> option Value.
Variable _parse_inline_structure : string -> Res Value.

Definition _parse_scalar (value : string) : Res Value :=
  let lowered := lower value in
  if String.eqb lowered "null" || String.eqb lowered "~" then Ok VNone
  else if String.eqb lowered "true" then Ok (VBool true)
  else if String.eqb lowered "false" then Ok (VBool false)
  else if startswith dquote value && endswith dquote value then Ok (VStr (strip_ends value))
  else if startswith squote value && endswith squote value then Ok (VStr (strip_ends value))
  else if startswith "{" value && endswith "}" value then _parse_inline_structure value
  else if startswith "[" value && endswith "]" value then _parse_inline_structure value
  else
    match
      if occurs "."%char value || occurs "e"%char lowered then py_float value
      else py_int value
    with
    | Some number => Ok number
    | None => Ok (VStr value)            (* except ValueError: return value *)
    end.
End ParseScalar.

(** ** Vocabulary of the properties *)

(** The field has a literal default or a default factory (lines 93-97). *)
Definition has_default (cls : Class) (name : string) : bool :=
  match field_defaults_of cls !! name with
  | Some field_info =>
      match fi_default field_info, fi_default_factory field_info with
      | None, None => false
      | _, _ => true
      end
  | None => false
  end.

(** The fields of a shape: the hints that [__init__] does not skip. *)
Definition field_names (hints : list (string * Hint)) : list string :=
  List.filter (fun name => negb (startswith "__" name)) (map fst hints).

(** The branch of [_coerce_type] that a hint selects. *)
Inductive Descriptor : Type :=
| DOptional      (* lines 134-144: Union with None, Optional *)
| DSequence      (* lines 157-158 *)
| DMapping       (* lines 159-164 *)
| DRecord        (* lines 152-156 *)
| DLiteralSet    (* Literal[...], and lines 148-151 *)
| DScalar.       (* line 165 only *)

Definition container_kind (origin : Origin) (args : list Hint) : Descriptor :=
  if origin_in_sequences (Some origin) && negb (Nat.eqb (length args) 0) then DSequence
  else if origin_in_mappings (Some origin) && Nat.eqb (length args) 2 then DMapping
  else DScalar.

Definition descriptor_kind (hint : Hint) : Descriptor :=
  match hint with
  | HAlias origin args =>
      if origin_is (Some origin) OUnion && existsb is_NoneType args then DOptional
      else if origin_is (Some origin) OOptional then DOptional
      else container_kind origin args
  | HDuck (Some origin) args => container_kind origin args
  | HDuck None (_ :: _) => DLiteralSet
  | HDuck None [] => DScalar
  | HModel _ => DRecord
  | HLiteral _ => DLiteralSet
  | HNoneType | HAny | HOptional | HPlain _ => DScalar
  end.

(** The validators of one phase that a class holds for a field, in the order
    of the list in [__validators__]. *)
Definition phase_validators (cls : Class) (name : string) (pre : bool) : list Validator :=
  fst <$> List.filter (fun '(_, is_pre) => Bool.eqb is_pre pre)
            (default [] (validators_of cls !! name)).

(** The validators that a class body declares for a field, in the order of
    the body. *)
Definition declared_validators (namespace : list (string * NsObj)) (field : string)
  : list (Validator * bool) :=
  flat_map
    (fun '(_, obj) =>
       match obj with
       | NsValidator f =>
           (fun _ => (f, v_pre f)) <$> List.filter (String.eqb field) (v_fields f)
       | _ => []
       end)
    namespace.

(** [calls_in_order cls fs v t r]: calling the validators [fs] one after the
    other, the first on [v] and each next one on what the one before
    returned, makes the calls [t] and ends in [r]. *)
Inductive calls_in_order (cls : Class)
  : list Validator -> Value -> list Event -> Res Value -> Prop :=
| calls_done value :
    calls_in_order cls [] value [] (Ok value)
| calls_next f fs value value' t r :
    v_func f (cls_name cls) value = Ok value' ->
    calls_in_order cls fs value' t r ->
    calls_in_order cls (f :: fs) value (Called (v_name f) (cls_name cls) value :: t) r
| calls_raise f fs value e :
    v_func f (cls_name cls) value = Raise e ->
    calls_in_order cls (f :: fs) value [Called (v_name f) (cls_name cls) value] (Raise e)
| calls_diverge f fs value :
    v_func f (cls_name cls) value = Diverge ->
    calls_in_order cls (f :: fs) value [Called (v_name f) (cls_name cls) value] Diverge.

(** [non_none[0]] of lines 135-138, when there is one. *)
Definition union_target (args : list Hint) : option Hint :=
  head (List.filter (fun arg => negb (is_NoneType arg)) args).

(** The arguments that the branches for sequences and mappings read: those
    of a subscripted generic, or the [__args__] of a duck-typed hint
    (lines 145-147). *)
Definition args_in_force (hint : Hint) : list Hint :=
  match hint with
  | HAlias _ args => args
  | HDuck (Some _) args => args
  | _ => []
  end.

(** The hint that lines 134-144 coerce a value other than None to: the first
    argument of the union that is not [NoneType], the argument of
    [Optional]. *)
Definition optional_target (hint : Hint) : option Hint :=
  match hint with
  | HAlias OUnion args => union_target args
  | HAlias OOptional (inner :: _) => Some inner
  | _ => None
  end.

(** The values of built-in types that [for item in value] refuses. *)
Definition never_iterable (value : Value) : bool :=
  match value with
  | VNone | VBool _ | VInt _ => true
  | _ => false
  end.

(** The values of built-in types that have no attribute [items]. *)
Definition without_items (value : Value) : bool :=
  match value with
  | VNone | VBool _ | VInt _ | VStr _ | VList _ | VTuple _ => true
  | _ => false
  end.

(** [k] is equal to no key of [d]. *)
Fixpoint fresh_key (d : list Value) (k : Value) : bool :=
  match d with
  | [] => true
  | k' :: r => negb (key_eqb k' k) && fresh_key r k
  end.

(** The keys of a dictionary as Python builds it: hashable, and each one
    different from those before it. *)
Fixpoint dict_keys_ok (seen keys : list Value) : bool :=
  match keys with
  | [] => true
  | k :: r => hashable k && fresh_key seen k && dict_keys_ok (seen ++ [k]) r
  end.

(** Lines 103-105: what a round of the loop of [__init__] does with the
    resolved value. *)
Definition field_pipeline (globals : Globals) (parse : Class -> Value -> M Value)
    (cls : Class) (name : string) (hint : Hint) (value : Value) : M Value :=
  value <- _apply_validators cls name value true ;;
  value <- _coerce_type globals parse hint value ;;
  _apply_validators cls name value false.

(** The shape of the two loops that fill a dictionary, one entry per item
    that is not skipped: the loop of [__init__] and the loop of [dict]. *)
Definition keyed_loop {B} (skip : string -> bool) (key : B -> string) (g : B -> M Value)
    (l : list B) (acc : list (string * Value)) : M (list (string * Value)) :=
  foldM
    (fun acc x =>
       if skip (key x) then ret acc
       else v <- g x ;; ret (odict_set acc (key x) v))
    l acc.

(** The keys that such a loop sets. *)
Definition kept_keys {B} (skip : string -> bool) (key : B -> string) (l : list B)
  : list string :=
  List.filter (fun k => negb (skip k)) (map key l).


(** One round of the loop of [dict] (lines 116-117), up to the value stored. *)
Definition dict_entry (fuel : nat) (globals : Globals) (self : Value) (name : string)
  : M Value :=
  value <- getattr globals self name ;;
  _export_value (dict fuel globals) value.

(** ** Example shapes *)

Module Examples.
(** [class P(BaseModel): x: int = 1] and [class C(P): x: int = 2] *)
Definition P : Class :=
  ModelMeta_new "P" (Some BaseModel) [("x", NsValue (VInt 1))] [("x", HPlain "int")].
Definition C : Class :=
  ModelMeta_new "C" (Some P) [("x", NsValue (VInt 2))] [("x", HPlain "int")].
(** [class CField(P): x: int = Field(2)] *)
Definition CField : Class :=
  ModelMeta_new "CField" (Some P) [("x", NsFieldInfo (Field (Some (VInt 2)) None))]
    [("x", HPlain "int")].

(** [class Inner(BaseModel): v: int], [class Outer(BaseModel): item: Inner],
    [class Outer2(BaseModel): items: List[Inner]] *)
Definition Inner : Class :=
  ModelMeta_new "Inner" (Some BaseModel) [] [("v", HPlain "int")].
Definition Outer : Class :=
  ModelMeta_new "Outer" (Some BaseModel) [] [("item", HModel "Inner")].
Definition Outer2 : Class :=
  ModelMeta_new "Outer2" (Some BaseModel) [] [("items", HAlias OList [HModel "Inner"])].

(** [class Pair(BaseModel): a: int; b: int] *)
Definition Pair : Class :=
  ModelMeta_new "Pair" (Some BaseModel) [] [("a", HPlain "int"); ("b", HPlain "int")].

(** A post-phase validator that replaces whatever it receives by [7], and a
    pre-phase one that adds one to an integer. *)
Definition seven : Validator :=
  mkValidator "seven" ["x"] false (fun _ _ => Ok (VInt 7)).
Definition succ_pre : Validator :=
  mkValidator "succ_pre" ["x"] true
    (fun _ v => match v with
                | VInt z => Ok (VInt (z + 1))
                | _ => Raise (TypeError "unsupported operand")
                end).

(** [class Opt(BaseModel): x: Optional[int]] with [@validator("x") seven] *)
Definition Opt : Class :=
  ModelMeta_new "Opt" (Some BaseModel) [("seven", NsValidator seven)]
    [("x", HAlias OUnion [HPlain "int"; HNoneType])].

(** [class V(BaseModel): x: int] with a pre-phase and a post-phase validator
    for [x], and [class W(V)] with one more post-phase validator for [x]. *)
Definition double_post : Validator :=
  mkValidator "double_post" ["x"] false
    (fun _ v => match v with
                | VInt z => Ok (VInt (2 * z))
                | _ => Raise (TypeError "unsupported operand")
                end).
Definition V : Class :=
  ModelMeta_new "V" (Some BaseModel)
    [("succ_pre", NsValidator succ_pre); ("double_post", NsValidator double_post)]
    [("x", HPlain "int")].
Definition W : Class :=
  ModelMeta_new "W" (Some V) [("seven", NsValidator seven)] [].

Definition globals : Globals :=
  list_to_map
    [("BaseModel", BaseModel); ("P", P); ("C", C); ("CField", CField);
     ("Inner", Inner); ("Outer", Outer); ("Outer2", Outer2); ("Pair", Pair);
     ("Opt", Opt); ("V", V); ("W", W)].
End Examples.

(** * Properties *)

(** ** The result monad *)

Lemma bind_ret_l {A B} (a : A) (k : A -> M B) : (x <- ret a ;; k x) = k a.
Proof. unfold bind, ret. destruct (k a) as [t r]. reflexivity. Qed.

Lemma bind_ret_r {A} (m : M A) : (x <- m ;; ret x) = m.
Proof.
  destruct m as [t [a | e |]]; simpl; try reflexivity.
  rewrite app_nil_r. reflexivity.
Qed.

Lemma bind_Ok {A B} (m : M A) (k : A -> M B) t b :
  (x <- m ;; k x) = (t, Ok b) <->
  exists t1 a t2, m = (t1, Ok a) /\ k a = (t2, Ok b) /\ t = t1 ++ t2.
Proof.
  split.
  - destruct m as [t1 [a | e |]]; simpl; try discriminate.
    destruct (k a) as [t2 r] eqn:Hk. intros [= <- ->].
    exists t1, a, t2. auto.
  - intros (t1 & a & t2 & -> & Hk & ->). simpl. rewrite Hk. reflexivity.
Qed.

Lemma bind_lift_Ok {A B} (a : A) (k : A -> M B) : (x <- lift (Ok a) ;; k x) = k a.
Proof. apply bind_ret_l. Qed.

Lemma bind_assoc {A B C} (m : M A) (k : A -> M B) (h : B -> M C) :
  (y <- (x <- m ;; k x) ;; h y) = (x <- m ;; y <- k x ;; h y).
Proof.
  destruct m as [t [a | e |]]; simpl; try reflexivity.
  destruct (k a) as [t2 [b | e |]]; simpl; try reflexivity.
  destruct (h b) as [t3 r]. rewrite app_assoc. reflexivity.
Qed.

(** ** Field override across inheritance *)

(** A plain default redeclared in a subclass never reaches the registry: the
    loop over the annotations skips every name that is already in
    [field_defaults], and the names inherited from the base are. *)
Lemma plain_redeclaration_keeps_inherited_default
    name (base : Class) namespace annotations x fi :
  field_defaults_of base !! x = Some fi ->
  (forall fi', (x, NsFieldInfo fi') ∉ namespace) ->
  field_defaults_of (ModelMeta_new name (Some base) namespace annotations) !! x = Some fi.
Proof.
  intros Hbase Hns. unfold ModelMeta_new. simpl.
  rewrite (right_id_L ∅ (∪)).
  set (fd1 := fold_left _ namespace _).
  assert (H1 : fd1 !! x = Some fi).
  { subst fd1. revert Hns. generalize (field_defaults_of base) Hbase.
    induction namespace as [| [attr value] ns IH]; intros fd Hfd Hns; simpl; [exact Hfd |].
    apply IH.
    - destruct value; try exact Hfd.
      destruct (decide (attr = x)) as [-> | Hne].
      + exfalso. apply (Hns fi0). left.
      + rewrite lookup_insert_ne; auto.
    - intros fi' Hin. apply (Hns fi'). right. exact Hin. }
  clearbody fd1.
  set (ns1 := List.filter _ namespace). clearbody ns1.
  revert fd1 H1.
  induction annotations as [| [attr hint] ann IH]; intros fd Hfd; simpl; [exact Hfd |].
  apply IH.
  destruct (fd !! attr) eqn:Hattr; [exact Hfd |].
  destruct (odict_get ns1 attr) as [[ | candidate | | ] |]; try exact Hfd.
  rewrite lookup_insert_ne; [exact Hfd |]. intros ->. congruence.
Qed.

(** C1 (the code departs from the claim): with [P] declaring [x: int = 1] and
    [C(P)] redeclaring [x: int = 2], constructing [C] from the empty mapping
    stores [1] in [x], the parent's default; only a redeclaration through
    [Field(2)] stores [2]. *)
Theorem C1_plain_redeclaration_yields_parent_default :
  __init__ 1 Examples.globals Examples.C ∅ = ret (VInst "C" [("x", VInt 1)]) /\
  field_defaults_of Examples.C !! "x" = Some (mkFieldInfo (Some (VInt 1)) None) /\
  __init__ 1 Examples.globals Examples.CField ∅ = ret (VInst "CField" [("x", VInt 2)]).
Proof. repeat split; vm_compute; reflexivity. Qed.

(** ** Absent optional fields *)

(** C3, as stated, fails: [Opt] declares [x: Optional[int]] and a post-phase
    validator for [x]; constructing it from the empty mapping calls that
    validator on [None] and stores what it returns. *)
Lemma C3_counterexample :
  __init__ 1 Examples.globals Examples.Opt ∅
  = ([Called "seven" "Opt" VNone], Ok (VInst "Opt" [("x", VInt 7)])).
Proof. vm_compute. reflexivity. Qed.

Lemma coerce_None_allows_none globals parse hint :
  _allows_none hint = true ->
  (get_origin hint = Some OOptional -> get_args hint <> []) ->
  _coerce_type globals parse hint VNone = ret VNone.
Proof.
  intros Hallow Hargs.
  destruct hint as [| | | n | n | origin args | allowed | [o |] args]; try reflexivity;
    try discriminate Hallow.
  unfold _allows_none in Hallow.
  destruct origin; simpl in *; try discriminate Hallow.
  - destruct (existsb is_NoneType args); [reflexivity | discriminate].
  - destruct args; [exfalso; apply Hargs; reflexivity | reflexivity].
Qed.

(** C3 (amended): for a field that the mapping lacks, that has no default and
    no factory, and whose hint admits [None], the resolved value is [None];
    the pre-phase validators run on it, coercion is applied to what they
    return, and the post-phase validators run on the coerced value.  Coercion
    maps [None] to [None] for such a hint. *)
Theorem C3_absent_optional_field globals parse cls data name hint :
  data !! name = None ->
  has_default cls name = false ->
  _allows_none hint = true ->
  resolve_value cls data name hint = ret VNone /\
  init_field globals parse cls data name hint =
    (v <- _apply_validators cls name VNone true ;;
     c <- _coerce_type globals parse hint v ;;
     _apply_validators cls name c false) /\
  ((get_origin hint = Some OOptional -> get_args hint <> []) ->
   _coerce_type globals parse hint VNone = ret VNone).
Proof.
  intros Hdata Hdef Hallow.
  assert (Hres : resolve_value cls data name hint = ret VNone).
  { unfold resolve_value, has_default in *. rewrite Hdata.
    destruct (field_defaults_of cls !! name) as [fi |].
    - destruct (fi_default fi); [discriminate |].
      destruct (fi_default_factory fi); [discriminate |].
      rewrite Hallow. reflexivity.
    - rewrite Hallow. reflexivity. }
  split; [exact Hres |]. split.
  - unfold init_field. rewrite Hres, bind_ret_l. reflexivity.
  - intros Hargs. apply coerce_None_allows_none; assumption.
Qed.

Lemma C3_absent_optional_field_witness :
  init_field Examples.globals (parse_obj 0 Examples.globals) Examples.Opt ∅ "x"
    (HAlias OUnion [HPlain "int"; HNoneType])
  = (v <- _apply_validators Examples.Opt "x" VNone true ;;
     c <- _coerce_type Examples.globals (parse_obj 0 Examples.globals)
            (HAlias OUnion [HPlain "int"; HNoneType]) v ;;
     _apply_validators Examples.Opt "x" c false).
Proof.
  apply (C3_absent_optional_field Examples.globals (parse_obj 0 Examples.globals)
           Examples.Opt ∅ "x" (HAlias OUnion [HPlain "int"; HNoneType]));
    vm_compute; reflexivity.
Defined.

(** ** The loop over the fields *)


Section Loop.
Variable globals : Globals.
Variable parse : Class -> Value -> M Value.
Variable cls : Class.
Variable data : gmap string Value.

Lemma init_loop_cons name hint hints attrs :
  init_loop globals parse cls data ((name, hint) :: hints) attrs =
  if startswith "__" name then init_loop globals parse cls data hints attrs
  else
    (value <- init_field globals parse cls data name hint ;;
     init_loop globals parse cls data hints (odict_set attrs name value)).
Proof.
  unfold init_loop. cbn [foldM]. destruct (startswith "__" name).
  - rewrite bind_ret_l. reflexivity.
  - rewrite bind_assoc.
    destruct (init_field globals parse cls data name hint) as [t [v | e |]];
      try reflexivity.
    cbn [bind]. rewrite bind_ret_l. reflexivity.
Qed.




Lemma init_field_missing name hint :
  data !! name = None ->
  has_default cls name = false ->
  _allows_none hint = false ->
  init_field globals parse cls data name hint = raise (MissingFieldError name cls).
Proof.
  intros Hdata Hdef Hallow. unfold init_field, resolve_value, has_default in *.
  rewrite Hdata.
  destruct (field_defaults_of cls !! name) as [fi |].
  - destruct (fi_default fi); [discriminate |].
    destruct (fi_default_factory fi); [discriminate |].
    rewrite Hallow. reflexivity.
  - rewrite Hallow. reflexivity.
Qed.
End Loop.

(** ** Missing required fields *)




(** ** Dictionaries filled by a loop *)

Lemma odict_get_set_eq {A} (d : list (string * A)) k v :
  odict_get (odict_set d k v) k = Some v.
Proof.
  induction d as [| [k' v'] d IH]; simpl.
  - rewrite String.eqb_refl. reflexivity.
  - destruct (String.eqb k' k) eqn:E; simpl; rewrite E; auto.
Qed.

Lemma odict_get_set_ne {A} (d : list (string * A)) k k' v :
  k <> k' -> odict_get (odict_set d k v) k' = odict_get d k'.
Proof.
  intros Hne. induction d as [| [k0 v0] d IH]; simpl.
  - destruct (String.eqb k k') eqn:E; [apply String.eqb_eq in E; contradiction | reflexivity].
  - destruct (String.eqb k0 k) eqn:E; simpl.
    + apply String.eqb_eq in E as ->.
      destruct (String.eqb k k') eqn:E'; [apply String.eqb_eq in E'; contradiction | reflexivity].
    + rewrite IH. reflexivity.
Qed.

Lemma odict_set_keys_new {A} (d : list (string * A)) k v :
  k ∉ map fst d -> map fst (odict_set d k v) = map fst d ++ [k].
Proof.
  induction d as [| [k' v'] d IH]; simpl; intros Hk; [reflexivity |].
  apply not_elem_of_cons in Hk as [Hne Hk].
  destruct (String.eqb k' k) eqn:E.
  - apply String.eqb_eq in E. congruence.
  - simpl. rewrite IH by assumption. reflexivity.
Qed.

Lemma odict_set_keys_old {A} (d : list (string * A)) k v :
  k ∈ map fst d -> map fst (odict_set d k v) = map fst d.
Proof.
  induction d as [| [k' v'] d IH]; simpl; intros Hk; [inversion Hk |].
  destruct (String.eqb k' k) eqn:E; [reflexivity |].
  simpl. f_equal. apply IH.
  apply elem_of_cons in Hk as [-> | Hk]; [| exact Hk].
  rewrite String.eqb_refl in E. discriminate.
Qed.

Lemma odict_set_keys_NoDup {A} (d : list (string * A)) k v :
  NoDup (map fst d) -> NoDup (map fst (odict_set d k v)).
Proof.
  intros Hnd. destruct (decide (k ∈ map fst d)) as [Hin | Hout].
  - rewrite odict_set_keys_old by assumption. exact Hnd.
  - rewrite odict_set_keys_new by assumption.
    apply NoDup_app. repeat split; [exact Hnd | | apply NoDup_singleton].
    intros x Hx Hx'. apply list_elem_of_singleton in Hx' as ->. contradiction.
Qed.

Section KeyedLoop.
Context {B : Type}.
Variable skip : string -> bool.
Variable key : B -> string.
Variable g : B -> M Value.

Lemma keyed_loop_cons x l acc :
  keyed_loop skip key g (x :: l) acc =
  if skip (key x) then keyed_loop skip key g l acc
  else (v <- g x ;; keyed_loop skip key g l (odict_set acc (key x) v)).
Proof.
  unfold keyed_loop. cbn [foldM]. destruct (skip (key x)).
  - rewrite bind_ret_l. reflexivity.
  - rewrite bind_assoc. destruct (g x) as [t [v | e |]]; try reflexivity.
    cbn [bind]. rewrite bind_ret_l. reflexivity.
Qed.

Lemma keyed_loop_keys l acc t acc' :
  keyed_loop skip key g l acc = (t, Ok acc') ->
  NoDup (map fst acc ++ kept_keys skip key l) ->
  map fst acc' = map fst acc ++ kept_keys skip key l.
Proof.
  revert acc t. induction l as [| x l IH]; intros acc t Hloop Hnd.
  - injection Hloop as <- <-. unfold kept_keys. simpl. rewrite app_nil_r. reflexivity.
  - rewrite keyed_loop_cons in Hloop. unfold kept_keys in *. simpl in *.
    destruct (skip (key x)); simpl in *.
    + eapply IH; eauto.
    + apply bind_Ok in Hloop as (t1 & v & t2 & _ & Hrest & _).
      assert (Hnew : key x ∉ map fst acc).
      { intros Hin. apply NoDup_app in Hnd as (_ & Hdisj & _).
        apply (Hdisj _ Hin). left. }
      apply IH in Hrest.
      * rewrite Hrest, odict_set_keys_new by assumption.
        rewrite <- app_assoc. reflexivity.
      * rewrite odict_set_keys_new by assumption.
        rewrite <- app_assoc. exact Hnd.
Qed.

Lemma keyed_loop_keeps l acc t acc' k :
  keyed_loop skip key g l acc = (t, Ok acc') ->
  k ∉ kept_keys skip key l ->
  odict_get acc' k = odict_get acc k.
Proof.
  revert acc t. induction l as [| x l IH]; intros acc t Hloop Hk.
  - injection Hloop as <- <-. reflexivity.
  - rewrite keyed_loop_cons in Hloop. unfold kept_keys in *. simpl in *.
    destruct (skip (key x)); simpl in *.
    + eapply IH; eauto.
    + apply not_elem_of_cons in Hk as [Hne Hk].
      apply bind_Ok in Hloop as (t1 & v & t2 & _ & Hrest & _).
      rewrite (IH _ _ Hrest Hk). apply odict_get_set_ne. congruence.
Qed.

(** Every item that is not skipped has its value under its key at the end. *)
Lemma keyed_loop_get l acc t acc' x :
  keyed_loop skip key g l acc = (t, Ok acc') ->
  NoDup (kept_keys skip key l) ->
  x ∈ l -> skip (key x) = false ->
  exists t' v, g x = (t', Ok v) /\ odict_get acc' (key x) = Some v.
Proof.
  revert acc t. induction l as [| y l IH]; intros acc t Hloop Hnd Hin Hx.
  - inversion Hin.
  - rewrite keyed_loop_cons in Hloop. unfold kept_keys in *. simpl in *.
    apply elem_of_cons in Hin as [-> | Hin].
    + rewrite Hx in *. simpl in *.
      apply bind_Ok in Hloop as (t1 & v & t2 & Hg & Hrest & _).
      exists t1, v. split; [exact Hg |].
      apply NoDup_cons in Hnd as [Hnew _].
      rewrite (keyed_loop_keeps _ _ _ _ _ Hrest Hnew). apply odict_get_set_eq.
    + destruct (skip (key y)); simpl in *.
      * eapply IH; eauto.
      * apply NoDup_cons in Hnd as [_ Hnd].
        apply bind_Ok in Hloop as (t1 & v & t2 & _ & Hrest & _).
        eapply IH; eauto.
Qed.

Lemma keyed_loop_Ok l acc :
  (forall x, x ∈ l -> skip (key x) = false -> exists t v, g x = (t, Ok v)) ->
  exists t acc', keyed_loop skip key g l acc = (t, Ok acc').
Proof.
  revert acc. induction l as [| x l IH]; intros acc Hall.
  - exists [], acc. reflexivity.
  - rewrite keyed_loop_cons. destruct (skip (key x)) eqn:Hs.
    + apply IH. intros y Hy. apply Hall. right. exact Hy.
    + destruct (Hall x) as (t1 & v & Hg); [left | exact Hs |].
      destruct (IH (odict_set acc (key x) v)) as (t2 & acc' & Hrest).
      { intros y Hy. apply Hall. right. exact Hy. }
      exists (t1 ++ t2), acc'. apply bind_Ok. eauto 10.
Qed.
End KeyedLoop.

Lemma foldM_ext {A B} (f f' : A -> B -> M A) (l : list B) (acc : A) :
  (forall a x, f a x = f' a x) -> foldM f l acc = foldM f' l acc.
Proof.
  intros Hext. revert acc. induction l as [| x l IH]; intros acc; cbn [foldM]; [reflexivity |].
  rewrite Hext. destruct (f' acc x) as [t [a | e |]]; try reflexivity.
  cbn [bind]. rewrite IH. reflexivity.
Qed.

Lemma init_loop_keyed globals parse cls data hints attrs :
  init_loop globals parse cls data hints attrs =
  keyed_loop (startswith "__") fst
    (fun x => init_field globals parse cls data (fst x) (snd x)) hints attrs.
Proof. unfold init_loop, keyed_loop. apply foldM_ext. intros a [name hint]. reflexivity. Qed.

Lemma field_names_kept hints : field_names hints = kept_keys (startswith "__") fst hints.
Proof. reflexivity. Qed.

(** ** The names in the hints of a class are distinct *)

Lemma update_hints_NoDup globals ann hints hints' :
  update_hints globals hints ann = Ok hints' ->
  NoDup (map fst hints) -> NoDup (map fst hints').
Proof.
  revert hints. induction ann as [| [name value] ann IH]; intros hints; simpl.
  - intros [= <-]. auto.
  - destruct (eval_annotation globals value) as [h | e |]; try discriminate.
    intros Hrest Hnd. eapply IH; eauto. apply odict_set_keys_NoDup. exact Hnd.
Qed.

Lemma get_type_hints_NoDup globals c hints :
  get_type_hints globals c = Ok hints -> NoDup (map fst hints).
Proof.
  unfold get_type_hints.
  assert (H : forall classes acc, hints_of_mro globals acc classes = Ok hints ->
                NoDup (map fst acc) -> NoDup (map fst hints)).
  { induction classes as [| b classes IH]; intros acc; simpl.
    - intros [= <-]. auto.
    - destruct (update_hints globals acc (cls_annotations b)) as [acc' | e |] eqn:Hu;
        try discriminate.
      intros Hrest Hnd. eapply IH; eauto. eapply update_hints_NoDup; eauto. }
  intros Hrun. eapply H; eauto. constructor.
Qed.

Lemma field_names_NoDup hints : NoDup (map fst hints) -> NoDup (field_names hints).
Proof. intros H. unfold field_names. apply NoDup_ListNoDup, List.NoDup_filter, NoDup_ListNoDup, H. Qed.

(** What [__init__] returns: an instance of the class whose attributes are
    the fields, each holding the outcome of its round of the loop. *)
Lemma init_Ok_inv fuel globals cls data t inst :
  __init__ fuel globals cls data = (t, Ok inst) ->
  exists n hints attrs,
    fuel = S n /\
    get_type_hints globals cls = Ok hints /\
    init_loop globals (call_with_keywords (__init__ n globals)) cls data hints [] = (t, Ok attrs) /\
    inst = VInst (cls_name cls) attrs.
Proof.
  destruct fuel as [| n]; [discriminate |]. simpl. unfold init_body.
  destruct (get_type_hints globals cls) as [hints | e |]; try discriminate.
  rewrite bind_lift_Ok. intros Hrun.
  apply bind_Ok in Hrun as (t1 & attrs & t2 & Hloop & Hret & ->).
  injection Hret as <- <-. rewrite app_nil_r. eauto 10.
Qed.

Lemma init_stores fuel globals cls data t c attrs hints name hint :
  __init__ fuel globals cls data = (t, Ok (VInst c attrs)) ->
  get_type_hints globals cls = Ok hints ->
  (name, hint) ∈ hints -> startswith "__" name = false ->
  exists n t' v,
    fuel = S n /\
    init_field globals (call_with_keywords (__init__ n globals)) cls data name hint = (t', Ok v) /\
    odict_get attrs name = Some v.
Proof.
  intros Hrun Hhints Hin Hnd.
  apply init_Ok_inv in Hrun as (n & hints' & attrs' & -> & Hhints' & Hloop & [= -> ->]).
  rewrite Hhints in Hhints'. injection Hhints' as <-.
  rewrite init_loop_keyed in Hloop.
  eapply keyed_loop_get in Hloop as (t' & v & Hf & Hget); eauto.
  - exists n, t', v. simpl in *. auto.
  - rewrite <- field_names_kept. apply field_names_NoDup.
    eapply get_type_hints_NoDup; eauto.
Qed.

Lemma init_attribute_names fuel globals cls data t c attrs hints :
  __init__ fuel globals cls data = (t, Ok (VInst c attrs)) ->
  get_type_hints globals cls = Ok hints ->
  map fst attrs = field_names hints.
Proof.
  intros Hrun Hhints.
  apply init_Ok_inv in Hrun as (n & hints' & attrs' & -> & Hhints' & Hloop & [= -> ->]).
  rewrite Hhints in Hhints'. injection Hhints' as <-.
  rewrite init_loop_keyed in Hloop.
  apply keyed_loop_keys in Hloop; [exact Hloop |].
  simpl. rewrite <- field_names_kept. apply field_names_NoDup.
  eapply get_type_hints_NoDup; eauto.
Qed.

(** ** Hints that select no branch *)

Lemma coerce_containers_scalar coerce origin args value :
  container_kind origin args = DScalar ->
  coerce_containers coerce origin args value = ret value.
Proof.
  unfold container_kind, coerce_containers.
  destruct (origin_in_sequences (Some origin) && negb (Nat.eqb (length args) 0));
    [discriminate |].
  destruct (origin_in_mappings (Some origin) && Nat.eqb (length args) 2);
    [discriminate | reflexivity].
Qed.

Lemma coerce_scalar globals parse hint value :
  descriptor_kind hint = DScalar ->
  _coerce_type globals parse hint value = ret value.
Proof.
  intros Hk.
  destruct hint as [| | | n | n | origin args | allowed | [o |] args];
    cbn [descriptor_kind _coerce_type] in *; try reflexivity; try discriminate Hk.
  - destruct (origin_is (Some origin) OUnion && existsb is_NoneType args);
      [discriminate Hk |].
    destruct (origin_is (Some origin) OOptional); [discriminate Hk |].
    apply coerce_containers_scalar, Hk.
  - apply coerce_containers_scalar, Hk.
Qed.

Lemma container_kind_not_literal origin args : container_kind origin args <> DLiteralSet.
Proof.
  unfold container_kind.
  destruct (origin_in_sequences (Some origin) && negb (Nat.eqb (length args) 0));
    [discriminate |].
  destruct (origin_in_mappings (Some origin) && Nat.eqb (length args) 2); discriminate.
Qed.

Lemma container_kind_optional_free origin args : container_kind origin args <> DOptional.
Proof.
  unfold container_kind.
  destruct (origin_in_sequences (Some origin) && negb (Nat.eqb (length args) 0));
    [discriminate |].
  destruct (origin_in_mappings (Some origin) && Nat.eqb (length args) 2); discriminate.
Qed.

Lemma container_kind_record_free origin args : container_kind origin args <> DRecord.
Proof.
  unfold container_kind.
  destruct (origin_in_sequences (Some origin) && negb (Nat.eqb (length args) 0));
    [discriminate |].
  destruct (origin_in_mappings (Some origin) && Nat.eqb (length args) 2); discriminate.
Qed.

Lemma coerce_literal globals parse hint value :
  descriptor_kind hint = DLiteralSet ->
  _coerce_type globals parse hint value = ret value.
Proof.
  intros Hk.
  destruct hint as [| | | n | n | origin args | allowed | [o |] args];
    cbn [descriptor_kind _coerce_type] in *; try reflexivity; try discriminate Hk.
  - destruct (origin_is (Some origin) OUnion && existsb is_NoneType args);
      [discriminate Hk |].
    destruct (origin_is (Some origin) OOptional); [discriminate Hk |].
    exfalso. eapply container_kind_not_literal, Hk.
  - exfalso. eapply container_kind_not_literal, Hk.
Qed.

(** What each branch does, for the hints that select it. *)
Lemma coerce_containers_sequence coerce origin args :
  container_kind origin args = DSequence ->
  exists T, head args = Some T /\
    forall value,
      coerce_containers coerce origin args value =
      (l <- iterate value ;; r <- mapM (coerce T) l ;; ret (VList r)).
Proof.
  unfold container_kind, coerce_containers.
  destruct (origin_in_sequences (Some origin) && negb (Nat.eqb (length args) 0)) eqn:Hs.
  - intros _. destruct args as [| T rest].
    + rewrite andb_false_r in Hs. discriminate Hs.
    + exists T. split; reflexivity.
  - destruct (origin_in_mappings (Some origin) && Nat.eqb (length args) 2); discriminate.
Qed.

Lemma coerce_containers_mapping coerce origin args :
  container_kind origin args = DMapping ->
  exists key_type value_type, args = [key_type; value_type] /\
    forall value,
      coerce_containers coerce origin args value =
      (kvs <- items value ;;
       d <- foldM
              (fun d '(key, val) =>
                 k <- coerce key_type key ;;
                 v <- coerce value_type val ;;
                 if hashable k then ret (dict_setitem d k v)
                 else raise (TypeError ("unhashable type: '" ++ type_name k ++ "'")%string))
              kvs [] ;;
       ret (VDict d)).
Proof.
  unfold container_kind, coerce_containers.
  destruct (origin_in_sequences (Some origin) && negb (Nat.eqb (length args) 0));
    [discriminate |].
  destruct (origin_in_mappings (Some origin) && Nat.eqb (length args) 2) eqn:Hm;
    [| discriminate].
  intros _. apply andb_true_iff in Hm as [_ Hlen].
  destruct args as [| K [| V [| ? ?]]]; try discriminate Hlen.
  exists K, V. split; reflexivity.
Qed.

Lemma coerce_kind_sequence globals parse hint :
  descriptor_kind hint = DSequence ->
  exists T, head (args_in_force hint) = Some T /\
    forall value,
      _coerce_type globals parse hint value =
      (l <- iterate value ;; r <- mapM (_coerce_type globals parse T) l ;; ret (VList r)).
Proof.
  intros Hk.
  destruct hint as [| | | n | n | origin args | allowed | [o |] [| a args]];
    cbn [descriptor_kind _coerce_type args_in_force] in *; try discriminate Hk.
  - destruct (origin_is (Some origin) OUnion && existsb is_NoneType args);
      [discriminate Hk |].
    destruct (origin_is (Some origin) OOptional); [discriminate Hk |].
    apply coerce_containers_sequence, Hk.
  - apply (coerce_containers_sequence (_coerce_type globals parse)) in Hk. exact Hk.
  - apply (coerce_containers_sequence (_coerce_type globals parse)) in Hk. exact Hk.
Qed.

Lemma coerce_kind_mapping globals parse hint :
  descriptor_kind hint = DMapping ->
  exists key_type value_type, args_in_force hint = [key_type; value_type] /\
    forall value,
      _coerce_type globals parse hint value =
      (kvs <- items value ;;
       d <- foldM
              (fun d '(key, val) =>
                 k <- _coerce_type globals parse key_type key ;;
                 v <- _coerce_type globals parse value_type val ;;
                 if hashable k then ret (dict_setitem d k v)
                 else raise (TypeError ("unhashable type: '" ++ type_name k ++ "'")%string))
              kvs [] ;;
       ret (VDict d)).
Proof.
  intros Hk.
  destruct hint as [| | | n | n | origin args | allowed | [o |] [| a args]];
    cbn [descriptor_kind _coerce_type args_in_force] in *; try discriminate Hk.
  - destruct (origin_is (Some origin) OUnion && existsb is_NoneType args);
      [discriminate Hk |].
    destruct (origin_is (Some origin) OOptional); [discriminate Hk |].
    apply coerce_containers_mapping, Hk.
  - apply (coerce_containers_mapping (_coerce_type globals parse)) in Hk. exact Hk.
  - apply (coerce_containers_mapping (_coerce_type globals parse)) in Hk. exact Hk.
Qed.

Lemma coerce_kind_optional globals parse hint value :
  descriptor_kind hint = DOptional ->
  (get_origin hint = Some OOptional -> get_args hint <> []) ->
  _coerce_type globals parse hint value =
  if is_None value then ret VNone
  else
    match optional_target hint with
    | Some target => _coerce_type globals parse target value
    | None => ret value
    end.
Proof.
  intros Hk Hargs.
  destruct hint as [| | | n | n | origin args | allowed | [o |] [| a args]];
    cbn [descriptor_kind] in Hk; try discriminate Hk.
  - destruct origin; cbn [origin_is andb] in Hk;
      try (exfalso; eapply (container_kind_optional_free _ args), Hk; fail).
    + (* Union *)
      destruct (existsb is_NoneType args) eqn:Hnone.
      * cbn [_coerce_type origin_is andb optional_target]. rewrite Hnone.
        destruct (is_None value); [reflexivity |].
        unfold union_target. clear.
        induction args as [| arg args IH]; [reflexivity |].
        cbn [List.filter]. destruct (is_NoneType arg); cbn [negb head];
          [exact IH | reflexivity].
      * exfalso. eapply (container_kind_optional_free _ args), Hk.
    + (* Optional *)
      destruct args as [| inner rest]; [exfalso; apply Hargs; reflexivity |].
      cbn [_coerce_type origin_is andb optional_target].
      destruct (is_None value); reflexivity.
  - exfalso. eapply container_kind_optional_free, Hk.
  - exfalso. eapply container_kind_optional_free, Hk.
Qed.

Lemma coerce_kind_record globals parse hint :
  descriptor_kind hint = DRecord ->
  exists model, hint = HModel model /\
    forall (S : Class) value,
      globals !! model = Some S ->
      _coerce_type globals parse hint value =
      if isinstance globals value model then ret value
      else if is_dict value then parse S value
      else ret value.
Proof.
  intros Hk.
  destruct hint as [| | | n | n | origin args | allowed | [o |] [| a args]];
    cbn [descriptor_kind] in Hk; try discriminate Hk.
  - exists n. split; [reflexivity |].
    intros S value HS. cbn [_coerce_type]. rewrite HS. reflexivity.
  - destruct (origin_is (Some origin) OUnion && existsb is_NoneType args);
      [discriminate Hk |].
    destruct (origin_is (Some origin) OOptional); [discriminate Hk |].
    exfalso. eapply container_kind_record_free, Hk.
  - exfalso. eapply container_kind_record_free, Hk.
  - exfalso. eapply container_kind_record_free, Hk.
Qed.

(** Coercion of None, for every hint: the branches for sequences and mappings
    raise, every other branch returns None. *)
Lemma coerce_None globals parse hint :
  (get_origin hint = Some OOptional -> get_args hint <> []) ->
  (forall model, hint = HModel model -> is_Some (globals !! model)) ->
  _coerce_type globals parse hint VNone =
  match descriptor_kind hint with
  | DSequence => raise (TypeError "'NoneType' object is not iterable")
  | DMapping => raise (AttributeError "'NoneType' object has no attribute 'items'")
  | _ => ret VNone
  end.
Proof.
  intros Hargs Hmodel.
  destruct (descriptor_kind hint) eqn:Hk.
  - rewrite (coerce_kind_optional _ _ _ _ Hk Hargs). reflexivity.
  - destruct (coerce_kind_sequence globals parse hint Hk) as (T & _ & ->). reflexivity.
  - destruct (coerce_kind_mapping globals parse hint Hk) as (K & V & _ & ->). reflexivity.
  - destruct (coerce_kind_record globals parse hint Hk) as (model & -> & Hco).
    destruct (Hmodel model eq_refl) as [S HS]. rewrite (Hco S VNone HS). reflexivity.
  - apply coerce_literal, Hk.
  - apply coerce_scalar, Hk.
Qed.

(** C7: [descriptor_kind] gives, for every hint, the one branch of
    [_coerce_type] that the hint selects, and coercion does what that branch
    says, for every value: the tests that select the branch raise nothing.
    So no hint is refused: for every hint there is a value that coercion
    returns, and an error of coercion comes from the value (one that cannot
    be iterated, has no [items], fails in [parse_obj] or cannot be a key).
    A hint that selects none of the branches for optionals, unions with
    None, sequences, mappings, nested records and literal sets has every
    value returned as it is, with no error and no call.  The side conditions
    concern what is not a declared type: [typing.get_origin] returns
    [Optional] for no hint, and a hint that is a class is a class that
    exists. *)
Theorem C7_unclassified_hint_passes_through globals parse hint :
  match descriptor_kind hint with
  | DScalar | DLiteralSet =>
      forall value, _coerce_type globals parse hint value = ret value
  | DOptional =>
      (get_origin hint = Some OOptional -> get_args hint <> []) ->
      forall value,
        _coerce_type globals parse hint value =
        if is_None value then ret VNone
        else
          match optional_target hint with
          | Some target => _coerce_type globals parse target value
          | None => ret value
          end
  | DSequence =>
      exists T, head (args_in_force hint) = Some T /\
        forall value,
          _coerce_type globals parse hint value =
          (l <- iterate value ;;
           r <- mapM (_coerce_type globals parse T) l ;;
           ret (VList r))
  | DMapping =>
      exists key_type value_type, args_in_force hint = [key_type; value_type] /\
        forall value,
          _coerce_type globals parse hint value =
          (kvs <- items value ;;
           d <- foldM
                  (fun d '(key, val) =>
                     k <- _coerce_type globals parse key_type key ;;
                     v <- _coerce_type globals parse value_type val ;;
                     if hashable k then ret (dict_setitem d k v)
                     else raise (TypeError ("unhashable type: '" ++ type_name k ++ "'")%string))
                  kvs [] ;;
           ret (VDict d))
  | DRecord =>
      exists model, hint = HModel model /\
        forall (S : Class) value,
          globals !! model = Some S ->
          _coerce_type globals parse hint value =
          if isinstance globals value model then ret value
          else if is_dict value then parse S value
          else ret value
  end /\
  ((get_origin hint = Some OOptional -> get_args hint <> []) ->
   (forall model, hint = HModel model -> is_Some (globals !! model)) ->
   exists value, _coerce_type globals parse hint value = ret value) /\
  (descriptor_kind hint <> DOptional ->
   descriptor_kind hint <> DSequence ->
   descriptor_kind hint <> DMapping ->
   descriptor_kind hint <> DRecord ->
   descriptor_kind hint <> DLiteralSet ->
   forall value, _coerce_type globals parse hint value = ret value).
Proof.
  split; [| split].
  - destruct (descriptor_kind hint) eqn:Hk.
    + intros Hargs value. apply coerce_kind_optional; assumption.
    + apply coerce_kind_sequence, Hk.
    + apply coerce_kind_mapping, Hk.
    + apply coerce_kind_record, Hk.
    + intros value. apply coerce_literal, Hk.
    + intros value. apply coerce_scalar, Hk.
  - intros Hargs Hmodel.
    destruct (descriptor_kind hint) eqn:Hk.
    + exists VNone. rewrite (coerce_kind_optional _ _ _ _ Hk Hargs). reflexivity.
    + exists (VList []).
      destruct (coerce_kind_sequence globals parse hint Hk) as (T & _ & ->). reflexivity.
    + exists (VDict []).
      destruct (coerce_kind_mapping globals parse hint Hk) as (K & V & _ & ->). reflexivity.
    + exists VNone. rewrite (coerce_None _ _ _ Hargs Hmodel), Hk. reflexivity.
    + exists VNone. apply coerce_literal, Hk.
    + exists VNone. apply coerce_scalar, Hk.
  - intros H1 H2 H3 H4 H5 value. apply coerce_scalar.
    destruct (descriptor_kind hint); congruence.
Qed.

Lemma C7_unclassified_hint_passes_through_witness :
  _coerce_type Examples.globals (parse_obj 0 Examples.globals)
    (HAlias (OOther "collections.abc.Sequence") [HModel "Inner"])
    (VList [VDict [(VStr "v", VInt 1)]])
  = ret (VList [VDict [(VStr "v", VInt 1)]]).
Proof.
  apply (proj2 (proj2 (C7_unclassified_hint_passes_through Examples.globals
                         (parse_obj 0 Examples.globals)
                         (HAlias (OOther "collections.abc.Sequence") [HModel "Inner"]))));
    vm_compute; discriminate.
Defined.

(** ** Sequences *)

Lemma mapM_Ok_inv {A B} (f : A -> M B) (l : list A) t ys :
  mapM f l = (t, Ok ys) ->
  Forall2 (fun x y => exists t', f x = (t', Ok y)) l ys.
Proof.
  revert t ys. induction l as [| x l IH]; intros t ys; cbn [mapM].
  - intros [= <- <-]. constructor.
  - intros Hrun. apply bind_Ok in Hrun as (t1 & y & t2 & Hf & Hrest & _).
    apply bind_Ok in Hrest as (t3 & ys' & t4 & Hmap & Hret & _).
    unfold ret in Hret. injection Hret as <- <-. constructor; eauto.
Qed.

Lemma mapM_Ok {A B} (f : A -> M B) (l : list A) :
  (forall x, x ∈ l -> exists t y, f x = (t, Ok y)) ->
  exists t ys, mapM f l = (t, Ok ys).
Proof.
  induction l as [| x l IH]; intros Hall; cbn [mapM].
  - exists [], []. reflexivity.
  - destruct (Hall x) as (t1 & y & Hf); [left |].
    destruct IH as (t2 & ys & Hmap); [intros z Hz; apply Hall; right; exact Hz |].
    exists (t1 ++ (t2 ++ [])), (y :: ys).
    apply bind_Ok. exists t1, y, (t2 ++ []). repeat split; [exact Hf |].
    apply bind_Ok. exists t2, ys, []. auto.
Qed.

Lemma coerce_sequence globals parse origin T rest value :
  origin_in_sequences (Some origin) = true ->
  _coerce_type globals parse (HAlias origin (T :: rest)) value =
  (l <- iterate value ;; r <- mapM (_coerce_type globals parse T) l ;; ret (VList r)).
Proof. destruct origin; try discriminate; reflexivity. Qed.

(** C8: for a hint [List[T]] or [Tuple[T, ...]] (origin among list, List,
    tuple, Tuple with arguments, the first being [T]) and a value that
    iterates over the items [xs], coercion coerces every item to [T]; what it
    returns is a new list with one coerced item per item of [xs], in the
    same order, and it returns whenever every item can be coerced. *)
Theorem C8_sequence_coercion globals parse origin T rest value xs :
  origin_in_sequences (Some origin) = true ->
  iterate value = ret xs ->
  (forall t r,
     _coerce_type globals parse (HAlias origin (T :: rest)) value = (t, Ok r) ->
     exists ys, r = VList ys /\ length ys = length xs /\
       Forall2 (fun x y => exists t', _coerce_type globals parse T x = (t', Ok y)) xs ys) /\
  ((forall x, x ∈ xs -> exists t y, _coerce_type globals parse T x = (t, Ok y)) ->
   exists t ys,
     _coerce_type globals parse (HAlias origin (T :: rest)) value = (t, Ok (VList ys)) /\
     length ys = length xs /\
     Forall2 (fun x y => exists t', _coerce_type globals parse T x = (t', Ok y)) xs ys).
Proof.
  intros Ho Hiter. rewrite coerce_sequence by exact Ho. rewrite Hiter, bind_ret_l. split.
  - intros t r Hrun. apply bind_Ok in Hrun as (t1 & ys & t2 & Hmap & Hret & _).
    unfold ret in Hret. injection Hret as <- <-. apply mapM_Ok_inv in Hmap.
    exists ys. split; [reflexivity |]. split; [| exact Hmap].
    symmetry. eapply Forall2_length; eauto.
  - intros Hall. destruct (mapM_Ok _ _ Hall) as (t & ys & Hmap).
    exists (t ++ []), ys. split; [apply bind_Ok; exists t, ys, []; auto |].
    apply mapM_Ok_inv in Hmap. split; [| exact Hmap].
    symmetry. eapply Forall2_length; eauto.
Qed.

Lemma C8_sequence_coercion_witness :
  exists t ys,
    _coerce_type Examples.globals (parse_obj 1 Examples.globals)
      (HAlias OList [HModel "Inner"])
      (VList [VDict [(VStr "v", VInt 1)]; VDict [(VStr "v", VInt 2)]])
    = (t, Ok (VList ys)) /\
    length ys = 2 /\
    Forall2
      (fun x y => exists t', _coerce_type Examples.globals (parse_obj 1 Examples.globals)
                               (HModel "Inner") x = (t', Ok y))
      [VDict [(VStr "v", VInt 1)]; VDict [(VStr "v", VInt 2)]] ys.
Proof.
  refine (proj2 (C8_sequence_coercion Examples.globals (parse_obj 1 Examples.globals)
                   OList (HModel "Inner") []
                   (VList [VDict [(VStr "v", VInt 1)]; VDict [(VStr "v", VInt 2)]])
                   [VDict [(VStr "v", VInt 1)]; VDict [(VStr "v", VInt 2)]]
                   eq_refl eq_refl) _).
  intros x Hx.
  apply elem_of_cons in Hx as [-> | Hx];
    [| apply elem_of_cons in Hx as [-> | Hx]; [| inversion Hx]].
  - exists [], (VInst "Inner" [("v", VInt 1)]). vm_compute. reflexivity.
  - exists [], (VInst "Inner" [("v", VInt 2)]). vm_compute. reflexivity.
Defined.

(** ** An explicit null *)

Lemma apply_validators_none cls name value pre :
  validators_of cls !! name = None ->
  _apply_validators cls name value pre = ret value.
Proof. intros H. unfold _apply_validators. rewrite H. reflexivity. Qed.

Lemma resolve_value_present cls data name hint value :
  data !! name = Some value -> resolve_value cls data name hint = ret value.
Proof. intros H. unfold resolve_value. rewrite H. reflexivity. Qed.

(** C9, as stated, fails: the explicit null is not always what the instance
    holds.  [Outer2] declares [items: List[Inner]], with no default and no
    validator; the mapping holds the key with None, the missing-field error is
    not raised, but coercion of None to a list raises and no instance is
    returned.  [Opt] declares [x: Optional[int]] with a post-phase validator;
    the mapping holds the key with None and the instance holds what the
    validator returned. *)
Lemma C9_counterexample :
  has_default Examples.Outer2 "items" = false /\
  resolve_value Examples.Outer2 {[ "items" := VNone ]} "items"
    (HAlias OList [HModel "Inner"]) = ret VNone /\
  __init__ 1 Examples.globals Examples.Outer2 {[ "items" := VNone ]}
    = raise (TypeError "'NoneType' object is not iterable") /\
  __init__ 1 Examples.globals Examples.Opt {[ "x" := VNone ]}
    = ([Called "seven" "Opt" VNone], Ok (VInst "Opt" [("x", VInt 7)])).
Proof. repeat split; vm_compute; reflexivity. Qed.

(** C9 (amended): when the mapping holds the key of a field with the value
    None, the value resolved for the field is that None, whatever the defaults
    and the hint of the field are: the missing-field check and the defaults
    are not consulted.  The round of the loop then treats None as any other
    value: pre-phase validators, coercion, post-phase validators; an instance
    that construction returns holds their result under the field.  For a
    field without validators the round raises when the hint selects the
    branch for sequences or for mappings, and yields None for every other
    hint; so an instance that construction returns holds None under the
    field, and the hint of the field is not one for sequences or mappings. *)
Theorem C9_explicit_null_is_a_value globals cls data name hint :
  data !! name = Some VNone ->
  resolve_value cls data name hint = ret VNone /\
  (forall parse,
     init_field globals parse cls data name hint
     = field_pipeline globals parse cls name hint VNone) /\
  (forall fuel t c attrs hints,
     get_type_hints globals cls = Ok hints ->
     (name, hint) ∈ hints -> startswith "__" name = false ->
     __init__ fuel globals cls data = (t, Ok (VInst c attrs)) ->
     exists n t' v,
       fuel = S n /\
       field_pipeline globals (call_with_keywords (__init__ n globals)) cls name hint VNone
         = (t', Ok v) /\
       odict_get attrs name = Some v) /\
  (forall parse,
     validators_of cls !! name = None ->
     (get_origin hint = Some OOptional -> get_args hint <> []) ->
     (forall model, hint = HModel model -> is_Some (globals !! model)) ->
     init_field globals parse cls data name hint =
     match descriptor_kind hint with
     | DSequence => raise (TypeError "'NoneType' object is not iterable")
     | DMapping => raise (AttributeError "'NoneType' object has no attribute 'items'")
     | _ => ret VNone
     end) /\
  (forall fuel t c attrs hints,
     validators_of cls !! name = None ->
     (get_origin hint = Some OOptional -> get_args hint <> []) ->
     (forall model, hint = HModel model -> is_Some (globals !! model)) ->
     get_type_hints globals cls = Ok hints ->
     (name, hint) ∈ hints -> startswith "__" name = false ->
     __init__ fuel globals cls data = (t, Ok (VInst c attrs)) ->
     descriptor_kind hint <> DSequence /\
     descriptor_kind hint <> DMapping /\
     odict_get attrs name = Some VNone).
Proof.
  intros Hdata.
  assert (Hpipe : forall parse,
             init_field globals parse cls data name hint
             = field_pipeline globals parse cls name hint VNone).
  { intros parse. unfold init_field, field_pipeline.
    rewrite (resolve_value_present _ _ _ _ _ Hdata), bind_ret_l. reflexivity. }
  assert (Hfield : forall parse,
             validators_of cls !! name = None ->
             (get_origin hint = Some OOptional -> get_args hint <> []) ->
             (forall model, hint = HModel model -> is_Some (globals !! model)) ->
             init_field globals parse cls data name hint =
             match descriptor_kind hint with
             | DSequence => raise (TypeError "'NoneType' object is not iterable")
             | DMapping => raise (AttributeError "'NoneType' object has no attribute 'items'")
             | _ => ret VNone
             end).
  { intros parse Hv Hargs Hmodel. rewrite Hpipe. unfold field_pipeline.
    rewrite apply_validators_none, bind_ret_l by exact Hv.
    rewrite (coerce_None _ _ _ Hargs Hmodel).
    destruct (descriptor_kind hint); try reflexivity;
      rewrite bind_ret_l; apply apply_validators_none, Hv. }
  split; [apply resolve_value_present, Hdata |]. split; [exact Hpipe |].
  split; [| split; [exact Hfield |]].
  - intros fuel t c attrs hints Hhints Hin Hnd Hrun.
    destruct (init_stores _ _ _ _ _ _ _ _ _ _ Hrun Hhints Hin Hnd)
      as (n & t' & v & Hfuel & Hf & Hget).
    exists n, t', v. rewrite Hpipe in Hf. auto.
  - intros fuel t c attrs hints Hv Hargs Hmodel Hhints Hin Hnd Hrun.
    destruct (init_stores _ _ _ _ _ _ _ _ _ _ Hrun Hhints Hin Hnd)
      as (n & t' & v & _ & Hf & Hget).
    rewrite (Hfield _ Hv Hargs Hmodel) in Hf.
    destruct (descriptor_kind hint); try discriminate Hf;
      injection Hf as _ <-; repeat split; try discriminate; exact Hget.
Qed.

Lemma C9_explicit_null_is_a_value_witness :
  resolve_value Examples.Inner {[ "v" := VNone ]} "v" (HPlain "int") = ret VNone /\
  has_default Examples.Inner "v" = false /\
  _allows_none (HPlain "int") = false /\
  __init__ 1 Examples.globals Examples.Inner {[ "v" := VNone ]}
    = ret (VInst "Inner" [("v", VNone)]).
Proof.
  split; [| repeat split; vm_compute; reflexivity].
  apply (C9_explicit_null_is_a_value Examples.globals Examples.Inner
           {[ "v" := VNone ]} "v" (HPlain "int")).
  vm_compute. reflexivity.
Defined.

(** ** Validators: phases and order *)

Lemma calls_in_order_run cls funcs pre value t r :
  foldM
    (fun value '(func, is_pre) =>
       if Bool.eqb is_pre pre then call_validator cls func value else ret value)
    funcs value = (t, r) <->
  calls_in_order cls
    (fst <$> List.filter (fun '(_, is_pre) => Bool.eqb is_pre pre) funcs) value t r.
Proof.
  unfold call_validator.
  revert value t r. induction funcs as [| [f is_pre] funcs IH]; intros value t r.
  - cbn. split.
    + intros [= <- <-]. constructor.
    + intros H. inversion H. reflexivity.
  - cbn [foldM List.filter]. destruct (Bool.eqb is_pre pre).
    + cbn [fmap list_fmap fst].
      destruct (v_func f (cls_name cls) value) as [value' | e |] eqn:Hf; cbn [bind]; split.
      * destruct (foldM _ funcs value') as [t' r'] eqn:Hrest.
        intros [= <- <-]. apply calls_next with value'; [exact Hf |]. apply IH, Hrest.
      * intros H. inversion H; subst; try congruence.
        match goal with Hc : calls_in_order _ _ _ _ _ |- _ => rename Hc into Hrest end.
        assert (value'0 = value') as -> by congruence.
        apply IH in Hrest. rewrite Hrest. reflexivity.
      * intros [= <- <-]. apply calls_raise, Hf.
      * intros H. inversion H; subst; try congruence.
      * intros [= <- <-]. apply calls_diverge, Hf.
      * intros H. inversion H; subst; congruence.
    + rewrite bind_ret_l. apply IH.
Qed.

Lemma resolve_value_silent cls data name hint :
  fst (resolve_value cls data name hint) = [].
Proof.
  unfold resolve_value. destruct (data !! name); [reflexivity |].
  destruct (field_defaults_of cls !! name) as [fi |].
  - destruct (fi_default fi); [reflexivity |].
    destruct (fi_default_factory fi); [reflexivity |].
    destruct (_allows_none hint); reflexivity.
  - destruct (_allows_none hint); reflexivity.
Qed.

Lemma lookup_extend_validators_empty (m : gmap string (list (Validator * bool))) field :
  extend_validators ∅ m !! field = m !! field.
Proof.
  unfold extend_validators. rewrite lookup_union_with, lookup_empty.
  destruct (m !! field); reflexivity.
Qed.

Lemma append_validators_lookup (fields : list string) e
    (vs : gmap string (list (Validator * bool))) field :
  default [] (fold_left (fun vs fld => append_validator vs fld e) fields vs !! field) =
  default [] (vs !! field) ++ ((fun _ => e) <$> List.filter (String.eqb field) fields).
Proof.
  revert vs. induction fields as [| fld fields IH]; intros vs; cbn [fold_left List.filter].
  - cbn. rewrite app_nil_r. reflexivity.
  - rewrite IH. unfold append_validator at 1.
    destruct (String.eqb field fld) eqn:E.
    + apply String.eqb_eq in E as <-. rewrite lookup_insert_eq. cbn.
      rewrite <- app_assoc. reflexivity.
    + rewrite lookup_insert_ne; [reflexivity |].
      intros ->. rewrite String.eqb_refl in E. discriminate.
Qed.

Lemma declared_validators_lookup namespace
    (vs : gmap string (list (Validator * bool))) field :
  default []
    (fold_left
       (fun vs '(_, obj) =>
          match obj with
          | NsValidator f =>
              fold_left (fun vs field => append_validator vs field (f, v_pre f)) (v_fields f) vs
          | _ => vs
          end)
       namespace vs !! field) =
  default [] (vs !! field) ++ declared_validators namespace field.
Proof.
  revert vs. induction namespace as [| [attr obj] ns IH]; intros vs;
    cbn [fold_left declared_validators flat_map].
  - rewrite app_nil_r. reflexivity.
  - rewrite IH. fold (declared_validators ns field). destruct obj; cbn [app]; try reflexivity.
    rewrite append_validators_lookup, <- app_assoc. reflexivity.
Qed.

Lemma declared_validators_popped namespace field :
  declared_validators (List.filter (fun '(_, value) => negb (is_FieldInfo value)) namespace) field
  = declared_validators namespace field.
Proof.
  induction namespace as [| [attr obj] ns IH]; [reflexivity |].
  cbn [List.filter]. destruct obj; cbn [is_FieldInfo negb];
    unfold declared_validators in *; cbn [flat_map]; rewrite IH; reflexivity.
Qed.

(** The validators of a subclass for a field: those of its base, then those
    of its own body in the order of the body. *)
Lemma ModelMeta_new_validators name base namespace annotations field :
  default [] (validators_of (ModelMeta_new name (Some base) namespace annotations) !! field) =
  default [] (validators_of base !! field) ++ declared_validators namespace field.
Proof.
  unfold ModelMeta_new. cbn [bases_of fold_left validators_of].
  rewrite declared_validators_lookup, lookup_extend_validators_empty,
    declared_validators_popped.
  reflexivity.
Qed.

Lemma phase_validators_subclass name base namespace annotations field pre :
  phase_validators (ModelMeta_new name (Some base) namespace annotations) field pre =
  phase_validators base field pre ++
  (fst <$> List.filter (fun '(_, is_pre) => Bool.eqb is_pre pre)
             (declared_validators namespace field)).
Proof.
  unfold phase_validators. rewrite ModelMeta_new_validators.
  rewrite List.filter_app, fmap_app. reflexivity.
Qed.

Lemma init_field_phases globals parse cls data name hint t out :
  init_field globals parse cls data name hint = (t, Ok out) ->
  exists raw t1 v1 t2 v2 t3,
    resolve_value cls data name hint = ret raw /\
    calls_in_order cls (phase_validators cls name true) raw t1 (Ok v1) /\
    _coerce_type globals parse hint v1 = (t2, Ok v2) /\
    calls_in_order cls (phase_validators cls name false) v2 t3 (Ok out) /\
    t = t1 ++ t2 ++ t3.
Proof.
  unfold init_field. intros Hrun.
  apply bind_Ok in Hrun as (t0 & raw & t' & Hres & Hrun & ->).
  apply bind_Ok in Hrun as (t1 & v1 & t'' & Hpre & Hrun & ->).
  apply bind_Ok in Hrun as (t2 & v2 & t3 & Hco & Hpost & ->).
  pose proof (resolve_value_silent cls data name hint) as Hsilent.
  rewrite Hres in Hsilent. simpl in Hsilent. subst t0.
  exists raw, t1, v1, t2, v2, t3. repeat split; auto.
  - apply calls_in_order_run in Hpre. exact Hpre.
  - apply calls_in_order_run in Hpost. exact Hpost.
Qed.

(** Validators that return what they are given all receive the same value. *)
Lemma calls_in_order_checks cls fs value t r :
  calls_in_order cls fs value t r ->
  (forall f, f ∈ fs -> v_func f (cls_name cls) value = Ok value) ->
  r = Ok value /\ map ev_arg t = map (fun _ => value) fs.
Proof.
  induction 1 as [v | f fs v v' t r Hf Hrest IH | f fs v e Hf | f fs v Hf]; intros Hall.
  - auto.
  - assert (v' = v) as -> by (specialize (Hall f ltac:(left)); congruence).
    destruct IH as [-> Hargs]; [intros g Hg; apply Hall; right; exact Hg |].
    cbn. rewrite Hargs. auto.
  - specialize (Hall f ltac:(left)). congruence.
  - specialize (Hall f ltac:(left)). congruence.
Qed.

(** C6: the validators that a subclass holds for a field are, phase by phase,
    those of its base followed by those of its own body in the order of the
    body; [_apply_validators] calls the validators of the phase in that
    order, the first on the value it is given and each next one on what the
    one before returned; and a round of the loop calls the pre-phase
    validators on the resolved value, which no coercion has touched, coerces
    what they return, and calls the post-phase validators on the coerced
    value.  Validators that return what they are given all receive that
    value. *)
Theorem C6_validator_phases_and_order :
  (forall name base namespace annotations field pre,
     phase_validators (ModelMeta_new name (Some base) namespace annotations) field pre =
     phase_validators base field pre ++
     (fst <$> List.filter (fun '(_, is_pre) => Bool.eqb is_pre pre)
                (declared_validators namespace field))) /\
  (forall cls name value pre t r,
     _apply_validators cls name value pre = (t, r) <->
     calls_in_order cls (phase_validators cls name pre) value t r) /\
  (forall globals parse cls data name hint t out,
     init_field globals parse cls data name hint = (t, Ok out) ->
     exists raw t1 v1 t2 v2 t3,
       resolve_value cls data name hint = ret raw /\
       calls_in_order cls (phase_validators cls name true) raw t1 (Ok v1) /\
       _coerce_type globals parse hint v1 = (t2, Ok v2) /\
       calls_in_order cls (phase_validators cls name false) v2 t3 (Ok out) /\
       t = t1 ++ t2 ++ t3) /\
  (forall cls fs value t r,
     calls_in_order cls fs value t r ->
     (forall f, f ∈ fs -> v_func f (cls_name cls) value = Ok value) ->
     r = Ok value /\ map ev_arg t = map (fun _ => value) fs).
Proof.
  split; [exact phase_validators_subclass |]. split; [| split].
  - intros cls name value pre t r. apply calls_in_order_run.
  - exact init_field_phases.
  - exact calls_in_order_checks.
Qed.

Lemma C6_validator_phases_and_order_witness :
  init_field Examples.globals (parse_obj 0 Examples.globals) Examples.W
    {[ "x" := VInt 1 ]} "x" (HPlain "int")
  = ([Called "succ_pre" "W" (VInt 1); Called "double_post" "W" (VInt 2);
      Called "seven" "W" (VInt 4)], Ok (VInt 7)) /\
  exists raw t1 v1 t2 v2 t3,
    resolve_value Examples.W {[ "x" := VInt 1 ]} "x" (HPlain "int") = ret raw /\
    calls_in_order Examples.W (phase_validators Examples.W "x" true) raw t1 (Ok v1) /\
    _coerce_type Examples.globals (parse_obj 0 Examples.globals) (HPlain "int") v1
      = (t2, Ok v2) /\
    calls_in_order Examples.W (phase_validators Examples.W "x" false) v2 t3 (Ok (VInt 7)) /\
    [Called "succ_pre" "W" (VInt 1); Called "double_post" "W" (VInt 2);
     Called "seven" "W" (VInt 4)] = t1 ++ t2 ++ t3.
Proof.
  assert (Hrun : init_field Examples.globals (parse_obj 0 Examples.globals) Examples.W
                   {[ "x" := VInt 1 ]} "x" (HPlain "int")
                 = ([Called "succ_pre" "W" (VInt 1); Called "double_post" "W" (VInt 2);
                     Called "seven" "W" (VInt 4)], Ok (VInt 7)))
    by (vm_compute; reflexivity).
  split; [exact Hrun |].
  exact (proj1 (proj2 (proj2 C6_validator_phases_and_order)) _ _ _ _ _ _ _ _ Hrun).
Defined.

(** ** Serialization *)

Lemma kept_keys_all {B} (key : B -> string) (l : list B) :
  kept_keys (fun _ => false) key l = map key l.
Proof.
  unfold kept_keys. induction (map key l) as [| k ks IH]; [reflexivity |].
  cbn [List.filter negb]. f_equal. exact IH.
Qed.

Lemma dict_loop_keyed n globals self hints acc :
  foldM
    (fun result '(name, _) =>
       value <- getattr globals self name ;;
       exported <- _export_value (dict n globals) value ;;
       ret (odict_set result name exported))
    hints acc =
  keyed_loop (fun _ => false) fst (fun x : string * Hint => dict_entry n globals self (fst x))
    hints acc.
Proof.
  unfold keyed_loop. apply foldM_ext. intros a [name hint]. cbn [fst].
  unfold dict_entry. rewrite bind_assoc. reflexivity.
Qed.

Lemma dict_unfold n globals c attrs cls hints :
  globals !! c = Some cls ->
  get_type_hints globals cls = Ok hints ->
  dict (S n) globals (VInst c attrs) =
  (result <- keyed_loop (fun _ => false) fst
               (fun x : string * Hint => dict_entry n globals (VInst c attrs) (fst x))
               hints [] ;;
   ret (VDict (str_keys result))).
Proof.
  intros Hc Hhints. cbn [dict]. rewrite Hc, Hhints, bind_lift_Ok, dict_loop_keyed.
  reflexivity.
Qed.



Lemma mapM_ret {A B} (f : A -> M B) (h : A -> B) (l : list A) :
  (forall x, x ∈ l -> f x = ret (h x)) -> mapM f l = ret (map h l).
Proof.
  induction l as [| x l IH]; intros Hall; cbn [mapM map]; [reflexivity |].
  rewrite Hall by left. rewrite bind_ret_l, IH, bind_ret_l; [reflexivity |].
  intros z Hz. apply Hall. right. exact Hz.
Qed.

Lemma export_field_defaults_value dict_of fd :
  _export_value dict_of (field_defaults_value fd) = ret (field_defaults_value fd).
Proof.
  unfold field_defaults_value. generalize (map_to_list fd). intros l.
  cbn [_export_value].
  rewrite (mapM_ret _ (fun x => x)).
  - rewrite bind_ret_l, map_id. reflexivity.
  - intros [k v] Hin. apply list_elem_of_fmap in Hin as ([k' fi] & [= -> ->] & _).
    reflexivity.
Qed.

Lemma export_validators_value dict_of vs :
  _export_value dict_of (validators_value vs) = ret (validators_value vs).
Proof.
  unfold validators_value. generalize (map_to_list vs). intros l.
  cbn [_export_value].
  rewrite (mapM_ret _ (fun x => x)).
  - rewrite bind_ret_l, map_id. reflexivity.
  - intros [k v] Hin. apply list_elem_of_fmap in Hin as ([k' funcs] & [= -> ->] & _).
    cbn [_export_value]. rewrite (mapM_ret _ (fun x => x)).
    + rewrite bind_ret_l, map_id, bind_ret_l. reflexivity.
    + intros x Hx. apply list_elem_of_fmap in Hx as ([f pre] & -> & _). reflexivity.
Qed.

Lemma odict_get_None {A} (d : list (string * A)) k :
  k ∉ map fst d -> odict_get d k = None.
Proof.
  induction d as [| [k' v] d IH]; [reflexivity |]. cbn. intros Hk.
  apply not_elem_of_cons in Hk as [Hne Hk].
  destruct (String.eqb k' k) eqn:E; [apply String.eqb_eq in E; congruence | auto].
Qed.

Lemma mro_head c : exists rest, mro c = c :: rest.
Proof. destruct c. cbn [mro]. eauto. Qed.

Lemma field_names_not_dunder hints name :
  name ∈ field_names hints -> startswith "__" name = false.
Proof.
  unfold field_names. rewrite list_elem_of_In, List.filter_In. intros [_ H].
  destruct (startswith "__" name); [discriminate | reflexivity].
Qed.





(** ** Keys that the shape does not declare *)

Lemma init_field_data_ext globals parse cls data data' name hint :
  data !! name = data' !! name ->
  init_field globals parse cls data name hint = init_field globals parse cls data' name hint.
Proof. intros H. unfold init_field, resolve_value. rewrite H. reflexivity. Qed.

Lemma init_loop_data_ext globals parse cls data data' hints attrs :
  (forall name, name ∈ field_names hints -> data !! name = data' !! name) ->
  init_loop globals parse cls data hints attrs = init_loop globals parse cls data' hints attrs.
Proof.
  revert attrs. induction hints as [| [name hint] hints IH]; intros attrs Hagree;
    [reflexivity |].
  rewrite !init_loop_cons. unfold field_names in *. cbn [map fst List.filter] in Hagree.
  destruct (startswith "__" name); cbn [negb] in Hagree.
  - apply IH. exact Hagree.
  - rewrite (init_field_data_ext _ _ _ data data') by (apply Hagree; left).
    destruct (init_field globals parse cls data' name hint) as [t [v | e |]]; try reflexivity.
    cbn [bind]. rewrite IH; [reflexivity |]. intros k Hk. apply Hagree. right. exact Hk.
Qed.

(** Construction reads the mapping at the fields of the shape only: two
    mappings that agree there are constructed alike. *)
Lemma init_ignores_undeclared_keys fuel globals cls data data' :
  (forall hints name,
     get_type_hints globals cls = Ok hints -> name ∈ field_names hints ->
     data !! name = data' !! name) ->
  __init__ fuel globals cls data = __init__ fuel globals cls data'.
Proof.
  intros Hagree. destruct fuel as [| n]; [reflexivity |].
  cbn [__init__]. unfold init_body.
  destruct (get_type_hints globals cls) as [hints | e |] eqn:Hh; try reflexivity.
  rewrite !bind_lift_Ok. rewrite (init_loop_data_ext _ _ _ data data'); [reflexivity |].
  intros name Hin. eapply Hagree; eauto.
Qed.

(** C10 (the code departs from the claim): [Inner] declares the one field
    [v].  Constructed from [{"v": 1, "extra": 9}], the instance holds [v]
    only, but its serialization has three keys: the two registries of the
    class come with the field, because the loop of [dict] does not skip the
    names that start with two underscores as the loop of [__init__] does.
    And a mapping with the undeclared key [self] makes [parse_obj] fail. *)
Theorem C10_serialization_adds_registry_keys :
  __init__ 1 Examples.globals Examples.Inner {[ "v" := VInt 1; "extra" := VInt 9 ]}
    = ret (VInst "Inner" [("v", VInt 1)]) /\
  dict 1 Examples.globals (VInst "Inner" [("v", VInt 1)])
    = ret (VDict [(VStr "__field_defaults__", VDict []);
                  (VStr "__validators__", VDict []);
                  (VStr "v", VInt 1)]) /\
  field_names (cls_annotations BaseModel ++ cls_annotations Examples.Inner) = ["v"] /\
  parse_obj 1 Examples.globals Examples.Inner
      (VDict [(VStr "v", VInt 1); (VStr "self", VInt 9)])
    = raise (TypeError "BaseModel.__init__() got multiple values for argument 'self'").
Proof. repeat split; vm_compute; reflexivity. Qed.

(** ** Coercion to a nested record *)

(** C2, as stated, fails: constructing [Outer] from [{"item": 5}] raises
    nothing and stores the integer. *)
Lemma C2_counterexample :
  parse_obj 2 Examples.globals Examples.Outer (VDict [(VStr "item", VInt 5)])
  = ret (VInst "Outer" [("item", VInt 5)]).
Proof. vm_compute. reflexivity. Qed.

Lemma coerce_record globals parse model (S : Class) (value : Value) :
  globals !! model = Some S ->
  _coerce_type globals parse (HModel model) value =
  if isinstance globals value model then ret value
  else if is_dict value then parse S value
  else ret value.
Proof. intros HS. cbn [_coerce_type]. rewrite HS. reflexivity. Qed.

(** C2 (amended): for a field whose hint is a model class [S], coercion
    returns an instance of [S] (or of a subclass) unchanged, hands a
    dictionary to [S.parse_obj], and returns every other value unchanged too:
    no error is raised for it, and when the field has no validators the
    instance that construction returns holds that value under the field. *)
Theorem C2_record_coercion globals model (S : Class) (value : Value) :
  globals !! model = Some S ->
  (forall parse, isinstance globals value model = true ->
     _coerce_type globals parse (HModel model) value = ret value) /\
  (forall parse kvs, value = VDict kvs ->
     _coerce_type globals parse (HModel model) value = parse S value) /\
  (forall parse, isinstance globals value model = false -> is_dict value = false ->
     _coerce_type globals parse (HModel model) value = ret value) /\
  (forall fuel cls data hints name t c attrs,
     isinstance globals value model = false -> is_dict value = false ->
     get_type_hints globals cls = Ok hints ->
     (name, HModel model) ∈ hints -> startswith "__" name = false ->
     validators_of cls !! name = None ->
     data !! name = Some value ->
     __init__ fuel globals cls data = (t, Ok (VInst c attrs)) ->
     odict_get attrs name = Some value).
Proof.
  intros HS. repeat split.
  - intros parse Hi. rewrite (coerce_record _ _ _ _ _ HS), Hi. reflexivity.
  - intros parse kvs ->. rewrite (coerce_record _ _ _ _ _ HS). reflexivity.
  - intros parse Hi Hd. rewrite (coerce_record _ _ _ _ _ HS), Hi, Hd. reflexivity.
  - intros fuel cls data hints name t c attrs Hi Hd Hhints Hin Hnd Hv Hdata Hrun.
    destruct (init_stores _ _ _ _ _ _ _ _ _ _ Hrun Hhints Hin Hnd)
      as (n & t' & v & _ & Hf & Hget).
    unfold init_field in Hf.
    rewrite (resolve_value_present _ _ _ _ _ Hdata), bind_ret_l in Hf.
    rewrite apply_validators_none, bind_ret_l in Hf by exact Hv.
    rewrite (coerce_record _ _ _ _ _ HS), Hi, Hd, bind_ret_l in Hf.
    rewrite apply_validators_none in Hf by exact Hv.
    injection Hf as _ <-. exact Hget.
Qed.

Lemma C2_record_coercion_witness :
  _coerce_type Examples.globals (parse_obj 1 Examples.globals) (HModel "Inner")
    (VInst "Inner" [("v", VInt 5)]) = ret (VInst "Inner" [("v", VInt 5)]) /\
  _coerce_type Examples.globals (parse_obj 1 Examples.globals) (HModel "Inner")
    (VDict [(VStr "v", VInt 5)])
    = parse_obj 1 Examples.globals Examples.Inner (VDict [(VStr "v", VInt 5)]) /\
  _coerce_type Examples.globals (parse_obj 1 Examples.globals) (HModel "Inner") (VInt 5)
    = ret (VInt 5).
Proof.
  destruct (C2_record_coercion Examples.globals "Inner" Examples.Inner
              (VInst "Inner" [("v", VInt 5)]) eq_refl) as (Hinst & _).
  destruct (C2_record_coercion Examples.globals "Inner" Examples.Inner
              (VDict [(VStr "v", VInt 5)]) eq_refl) as (_ & Hdict & _).
  destruct (C2_record_coercion Examples.globals "Inner" Examples.Inner
              (VInt 5) eq_refl) as (_ & _ & Hother & _).
  split; [apply Hinst; reflexivity |].
  split; [eapply Hdict; reflexivity | apply Hother; reflexivity].
Defined.

(** ** Hints that admit None *)

Lemma allows_none_cases hint :
  _allows_none hint = true <->
  hint = HAny \/ hint = HOptional \/
  exists origin args,
    hint = HAlias origin args /\
    ((origin = OUnion /\ existsb is_NoneType args = true) \/ origin = OOptional).
Proof.
  split.
  - destruct hint as [| | | n | n | origin args | allowed | o args];
      try discriminate; auto.
    unfold _allows_none. cbn [get_origin get_args].
    intros H. right. right. exists origin, args. split; [reflexivity |].
    destruct origin; cbn in H; try discriminate; auto.
    destruct (existsb is_NoneType args); [auto | discriminate].
  - intros [-> | [-> | (origin & args & -> & [[-> Hn] | ->])]]; try reflexivity.
    unfold _allows_none. cbn. rewrite Hn. reflexivity.
Qed.

(** * Further properties of the engine *)

(** ** The registry of field defaults that the metaclass builds *)

Lemma insert_field_infos_other namespace (fd : gmap string FieldInfo) x :
  x ∉ map fst namespace ->
  fold_left
    (fun fd '(attr, value) =>
       match value with NsFieldInfo fi => <[attr := fi]> fd | _ => fd end)
    namespace fd !! x = fd !! x.
Proof.
  revert fd. induction namespace as [| [attr value] ns IH]; intros fd Hx; [reflexivity |].
  cbn [fold_left]. cbn in Hx. apply not_elem_of_cons in Hx as [Hne Hx].
  rewrite IH by exact Hx. destruct value; try reflexivity.
  apply lookup_insert_ne. congruence.
Qed.

Lemma insert_field_infos_lookup namespace (fd : gmap string FieldInfo) x :
  NoDup (map fst namespace) ->
  fold_left
    (fun fd '(attr, value) =>
       match value with NsFieldInfo fi => <[attr := fi]> fd | _ => fd end)
    namespace fd !! x =
  match odict_get namespace x with
  | Some (NsFieldInfo fi) => Some fi
  | _ => fd !! x
  end.
Proof.
  revert fd. induction namespace as [| [attr value] ns IH]; intros fd Hnd; [reflexivity |].
  cbn in Hnd. apply NoDup_cons in Hnd as [Hnew Hnd].
  cbn [fold_left odict_get]. destruct (String.eqb attr x) eqn:E.
  - apply String.eqb_eq in E as ->. rewrite insert_field_infos_other by exact Hnew.
    destruct value; try reflexivity. apply lookup_insert_eq.
  - rewrite IH by exact Hnd.
    assert (attr <> x) by (intros ->; rewrite String.eqb_refl in E; discriminate).
    destruct (odict_get ns x) as [[] |]; try reflexivity;
      destruct value; try reflexivity; apply lookup_insert_ne; assumption.
Qed.

Lemma popped_namespace_lookup namespace x :
  NoDup (map fst namespace) ->
  odict_get (List.filter (fun '(_, value) => negb (is_FieldInfo value)) namespace) x =
  match odict_get namespace x with
  | Some (NsFieldInfo _) => None
  | bound => bound
  end.
Proof.
  induction namespace as [| [attr value] ns IH]; intros Hnd; [reflexivity |].
  cbn in Hnd. apply NoDup_cons in Hnd as [Hnew Hnd].
  cbn [List.filter odict_get]. destruct (String.eqb attr x) eqn:E.
  - apply String.eqb_eq in E as ->.
    destruct value; cbn [is_FieldInfo negb odict_get]; rewrite ?String.eqb_refl;
      try reflexivity.
    rewrite IH by exact Hnd. rewrite odict_get_None by exact Hnew. reflexivity.
  - destruct value; cbn [is_FieldInfo negb odict_get]; rewrite ?E; apply IH, Hnd.
Qed.

Lemma plain_defaults_lookup (namespace : list (string * NsObj))
    (annotations : list (string * Hint)) (fd : gmap string FieldInfo) x :
  fold_left
    (fun fd '(attr, _) =>
       match fd !! attr with
       | Some _ => fd
       | None =>
           match odict_get namespace attr with
           | Some (NsValue candidate) => <[attr := mkFieldInfo (Some candidate) None]> fd
           | _ => fd
           end
       end)
    annotations fd !! x =
  match fd !! x with
  | Some fi => Some fi
  | None =>
      match odict_get namespace x with
      | Some (NsValue candidate) =>
          if bool_decide (x ∈ map fst annotations)
          then Some (mkFieldInfo (Some candidate) None) else None
      | _ => None
      end
  end.
Proof.
  revert fd. induction annotations as [| [attr hint] ann IH]; intros fd.
  - cbn. destruct (fd !! x); [reflexivity |].
    destruct (odict_get namespace x) as [[] |]; reflexivity.
  - cbn [fold_left]. rewrite IH. cbn [map fst].
    destruct (decide (attr = x)) as [-> | Hne].
    + destruct (fd !! x) eqn:Hfd; [rewrite Hfd; reflexivity |].
      destruct (odict_get namespace x) as [[fi | v | c | f] |] eqn:Hns; rewrite ?Hfd;
        try reflexivity.
      rewrite lookup_insert_eq, bool_decide_eq_true_2 by left. reflexivity.
    + assert (Hx : match fd !! attr with
                   | Some _ => fd
                   | None =>
                       match odict_get namespace attr with
                       | Some (NsValue candidate) =>
                           <[attr := mkFieldInfo (Some candidate) None]> fd
                       | _ => fd
                       end
                   end !! x = fd !! x).
      { destruct (fd !! attr); [reflexivity |].
        destruct (odict_get namespace attr) as [[] |]; try reflexivity.
        apply lookup_insert_ne. exact Hne. }
      rewrite Hx. destruct (fd !! x); [reflexivity |].
      destruct (odict_get namespace x) as [[fi | v | c | f] |]; try reflexivity.
      destruct (decide (x ∈ map fst ann)) as [Hin | Hout].
      * rewrite !bool_decide_eq_true_2; [reflexivity | right; exact Hin | exact Hin].
      * rewrite !bool_decide_eq_false_2; [reflexivity | | exact Hout].
        intros Hin. apply elem_of_cons in Hin as [-> | Hin]; contradiction.
Qed.

(** The registry of the bases, as the first loop of the metaclass leaves it. *)
Lemma inherited_field_defaults base :
  fst (fold_left
         (fun '(fd, vs) b =>
            (field_defaults_of b ∪ fd, extend_validators vs (validators_of b)))
         (bases_of base) (∅, ∅))
  = match base with Some b => field_defaults_of b | None => ∅ end.
Proof. destruct base; cbn; [apply (right_id_L ∅ (∪)) | reflexivity]. Qed.

Lemma field_defaults_lookup name base namespace annotations x :
  NoDup (map fst namespace) ->
  field_defaults_of (ModelMeta_new name base namespace annotations) !! x =
  match odict_get namespace x with
  | Some (NsFieldInfo fi) => Some fi
  | bound =>
      match match base with Some b => field_defaults_of b | None => ∅ end !! x with
      | Some fi => Some fi
      | None =>
          match bound with
          | Some (NsValue candidate) =>
              if bool_decide (x ∈ map fst annotations)
              then Some (mkFieldInfo (Some candidate) None) else None
          | _ => None
          end
      end
  end.
Proof.
  intros Hnd. unfold ModelMeta_new.
  pose proof (inherited_field_defaults base) as Hbase.
  destruct (fold_left _ (bases_of base) (∅, ∅)) as [fd0 vs0]. cbn [fst] in Hbase. subst fd0.
  cbn [field_defaults_of].
  rewrite plain_defaults_lookup, insert_field_infos_lookup, popped_namespace_lookup
    by exact Hnd.
  destruct (odict_get namespace x) as [[fi | v | c | f] |]; reflexivity.
Qed.

(** X1: what [__field_defaults__] of a new class holds for a name, given that
    the names of the class body are distinct: the [FieldInfo] that the body
    binds to the name; failing that, the entry of the base; failing that, a
    default made of the plain value that the body binds to the name, when the
    value is not callable and the name is annotated; otherwise nothing. *)
Theorem X1_field_defaults_registry name base namespace annotations x :
  NoDup (map fst namespace) ->
  field_defaults_of (ModelMeta_new name base namespace annotations) !! x =
  match odict_get namespace x with
  | Some (NsFieldInfo fi) => Some fi
  | bound =>
      match match base with Some b => field_defaults_of b | None => ∅ end !! x with
      | Some fi => Some fi
      | None =>
          match bound with
          | Some (NsValue candidate) =>
              if bool_decide (x ∈ map fst annotations)
              then Some (mkFieldInfo (Some candidate) None) else None
          | _ => None
          end
      end
  end.
Proof. apply field_defaults_lookup. Qed.

Lemma X1_field_defaults_registry_witness :
  field_defaults_of Examples.CField !! "x" = Some (mkFieldInfo (Some (VInt 2)) None) /\
  field_defaults_of Examples.C !! "x" = field_defaults_of Examples.P !! "x".
Proof.
  split.
  - refine (eq_trans
              (X1_field_defaults_registry "CField" (Some Examples.P)
                 [("x", NsFieldInfo (Field (Some (VInt 2)) None))] [("x", HPlain "int")] "x" _)
              _).
    + apply NoDup_singleton.
    + reflexivity.
  - refine (eq_trans
              (X1_field_defaults_registry "C" (Some Examples.P)
                 [("x", NsValue (VInt 2))] [("x", HPlain "int")] "x" _)
              _).
    + apply NoDup_singleton.
    + vm_compute. reflexivity.
Defined.

(** X2: a field whose value in the class body is callable (and that the base
    does not register) gets no default: the class treats it as required, and
    constructing it from a mapping without the field raises the missing-field
    error when its hint does not admit None. *)
Theorem X2_callable_default_is_required name base namespace annotations x obj :
  NoDup (map fst namespace) ->
  odict_get namespace x = Some obj ->
  callable obj = true ->
  match base with Some b => field_defaults_of b | None => ∅ end !! x = None ->
  has_default (ModelMeta_new name base namespace annotations) x = false /\
  (forall globals parse data hint,
     data !! x = None -> _allows_none hint = false ->
     init_field globals parse (ModelMeta_new name base namespace annotations) data x hint
     = raise (MissingFieldError x (ModelMeta_new name base namespace annotations))).
Proof.
  intros Hnd Hobj Hcall Hbase.
  assert (Hdef : has_default (ModelMeta_new name base namespace annotations) x = false).
  { unfold has_default. rewrite field_defaults_lookup, Hobj, Hbase by exact Hnd.
    destruct obj; try discriminate Hcall; reflexivity. }
  split; [exact Hdef |].
  intros globals parse data hint Hdata Hallow. apply init_field_missing; assumption.
Qed.

Lemma X2_callable_default_is_required_witness :
  init_field ∅ (fun _ v => ret v)
    (ModelMeta_new "Job" (Some BaseModel) [("handler", NsCallable "print")]
       [("handler", HPlain "Callable")])
    ∅ "handler" (HPlain "Callable")
  = raise (ValueError "Missing required field 'handler' for Job").
Proof.
  refine (proj2 (X2_callable_default_is_required "Job" (Some BaseModel)
                   [("handler", NsCallable "print")] [("handler", HPlain "Callable")]
                   "handler" (NsCallable "print") _ eq_refl eq_refl eq_refl)
            ∅ (fun _ v => ret v) ∅ (HPlain "Callable") eq_refl eq_refl).
  apply NoDup_singleton.
Defined.

(** ** The hints of a subclass *)

Lemma hints_of_mro_app globals hints classes1 classes2 :
  hints_of_mro globals hints (classes1 ++ classes2) =
  match hints_of_mro globals hints classes1 with
  | Ok hints' => hints_of_mro globals hints' classes2
  | Raise e => Raise e
  | Diverge => Diverge
  end.
Proof.
  revert hints. induction classes1 as [| b classes1 IH]; intros hints; [reflexivity |].
  cbn [app hints_of_mro].
  destruct (update_hints globals hints (cls_annotations b)); try reflexivity. apply IH.
Qed.

Lemma get_type_hints_subclass globals name base namespace annotations :
  get_type_hints globals (ModelMeta_new name (Some base) namespace annotations) =
  match get_type_hints globals base with
  | Ok hints => update_hints globals hints annotations
  | Raise e => Raise e
  | Diverge => Diverge
  end.
Proof.
  unfold get_type_hints.
  assert (Hmro : mro (ModelMeta_new name (Some base) namespace annotations)
                 = ModelMeta_new name (Some base) namespace annotations :: mro base).
  { unfold ModelMeta_new. destruct (fold_left _ (bases_of (Some base)) (∅, ∅)).
    reflexivity. }
  rewrite Hmro. cbn [rev]. rewrite hints_of_mro_app.
  destruct (hints_of_mro globals [] (rev (mro base))) as [hints | e |]; try reflexivity.
  cbn [hints_of_mro].
  assert (Hann : cls_annotations (ModelMeta_new name (Some base) namespace annotations)
                 = annotations).
  { unfold ModelMeta_new. destruct (fold_left _ (bases_of (Some base)) (∅, ∅)).
    reflexivity. }
  rewrite Hann. destruct (update_hints globals hints annotations); reflexivity.
Qed.

Lemma update_hints_names globals ann hints hints' :
  update_hints globals hints ann = Ok hints' ->
  exists added,
    map fst hints' = map fst hints ++ added /\
    (forall x, x ∈ added <-> x ∈ map fst ann /\ x ∉ map fst hints).
Proof.
  revert hints. induction ann as [| [name value] ann IH]; intros hints; cbn [update_hints].
  - intros [= <-]. exists []. rewrite app_nil_r. split; [reflexivity |].
    intros x. split; [intros Hx; inversion Hx | intros [Hx _]; inversion Hx].
  - destruct (eval_annotation globals value) as [h | e |]; try discriminate.
    intros Hrest. apply IH in Hrest as (added & Hkeys & Hadded). cbn [map fst].
    destruct (decide (name ∈ map fst hints)) as [Hin | Hout].
    + rewrite odict_set_keys_old in Hkeys by exact Hin.
      exists added. split; [exact Hkeys |].
      intros x. rewrite Hadded, odict_set_keys_old by exact Hin. split.
      * intros [H1 H2]. split; [right; exact H1 | exact H2].
      * intros [H1 H2]. split; [| exact H2].
        apply elem_of_cons in H1 as [-> | H1]; [contradiction | exact H1].
    + rewrite odict_set_keys_new in Hkeys by exact Hout.
      exists (name :: added). split; [rewrite Hkeys, <- app_assoc; reflexivity |].
      intros x. rewrite elem_of_cons, Hadded, odict_set_keys_new by exact Hout. split.
      * intros [-> | [H1 H2]]; [split; [left | exact Hout] |].
        split; [right; exact H1 |]. intros Hn. apply H2, elem_of_app. left. exact Hn.
      * intros [H1 H2]. destruct (decide (x = name)) as [-> | Hne]; [left; reflexivity |].
        right. split.
        -- apply elem_of_cons in H1 as [-> | H1]; [contradiction | exact H1].
        -- intros Hn. apply elem_of_app in Hn as [Hn | Hn]; [contradiction |].
           apply list_elem_of_singleton in Hn. contradiction.
Qed.

Lemma update_hints_lookup globals ann hints hints' x :
  NoDup (map fst ann) ->
  update_hints globals hints ann = Ok hints' ->
  odict_get hints' x =
  match odict_get ann x with
  | Some h => Some h
  | None => odict_get hints x
  end.
Proof.
  revert hints. induction ann as [| [name value] ann IH]; intros hints Hnd; cbn [update_hints].
  - intros [= <-]. reflexivity.
  - cbn in Hnd. apply NoDup_cons in Hnd as [Hnew Hnd].
    unfold eval_annotation. destruct (unresolved globals value); try discriminate.
    intros Hrest. rewrite (IH _ Hnd Hrest). cbn [odict_get].
    destruct (String.eqb name x) eqn:E.
    + apply String.eqb_eq in E as ->. rewrite odict_get_None by exact Hnew.
      apply odict_get_set_eq.
    + destruct (odict_get ann x); [reflexivity |].
      apply odict_get_set_ne. intros ->. rewrite String.eqb_refl in E. discriminate.
Qed.

(** X3: the hints of a subclass are the hints of its base, in their order,
    with the hint of every name that the subclass annotates replaced by the
    annotation of the subclass, followed by the names that only the subclass
    annotates: no field of the base is lost or moved. *)
Theorem X3_subclass_hints_extend_base globals name base namespace annotations
    hints_base hints :
  NoDup (map fst annotations) ->
  get_type_hints globals base = Ok hints_base ->
  get_type_hints globals (ModelMeta_new name (Some base) namespace annotations) = Ok hints ->
  (exists added,
     map fst hints = map fst hints_base ++ added /\
     (forall x, x ∈ added <-> x ∈ map fst annotations /\ x ∉ map fst hints_base)) /\
  (forall x,
     odict_get hints x =
     match odict_get annotations x with
     | Some h => Some h
     | None => odict_get hints_base x
     end).
Proof.
  intros Hnd Hbase Hsub. rewrite get_type_hints_subclass, Hbase in Hsub. split.
  - eapply update_hints_names; eauto.
  - intros x. eapply update_hints_lookup; eauto.
Qed.

Lemma X3_subclass_hints_extend_base_witness :
  (exists added,
     map fst (cls_annotations BaseModel ++ [("x", HPlain "int")])
       = map fst (cls_annotations BaseModel ++ [("x", HPlain "int")]) ++ added /\
     (forall x, x ∈ added <->
        x ∈ map fst [("x", HPlain "int")] /\
        x ∉ map fst (cls_annotations BaseModel ++ [("x", HPlain "int")]))) /\
  (forall x,
     odict_get (cls_annotations BaseModel ++ [("x", HPlain "int")]) x =
     match odict_get [("x", HPlain "int")] x with
     | Some h => Some h
     | None => odict_get (cls_annotations BaseModel ++ [("x", HPlain "int")]) x
     end).
Proof.
  refine (X3_subclass_hints_extend_base Examples.globals "C" Examples.P
            [("x", NsValue (VInt 2))] [("x", HPlain "int")] _ _ _ _ _).
  - apply NoDup_singleton.
  - vm_compute. reflexivity.
  - vm_compute. reflexivity.
Defined.

(** ** Unions with None *)

Lemma coerce_union_with_none globals parse args value :
  existsb is_NoneType args = true ->
  _coerce_type globals parse (HAlias OUnion args) value =
  if is_None value then ret VNone
  else
    match union_target args with
    | Some target => _coerce_type globals parse target value
    | None => ret value
    end.
Proof.
  intros Hnone. cbn [_coerce_type origin_is andb]. rewrite Hnone.
  destruct (is_None value); [reflexivity |].
  unfold union_target. clear Hnone.
  induction args as [| arg args IH]; [reflexivity |].
  cbn [List.filter]. destruct (is_NoneType arg); cbn [negb head]; [exact IH | reflexivity].
Qed.

(** X4: for a hint [Union[..., None]] (so for [Optional[T]]), coercion maps None
    to None and coerces every other value to the first argument of the union
    that is not [NoneType], and to that one only: the later alternatives are
    never tried. *)
Theorem X4_union_coerces_to_first_alternative globals parse args value :
  existsb is_NoneType args = true ->
  _coerce_type globals parse (HAlias OUnion args) value =
  if is_None value then ret VNone
  else
    match union_target args with
    | Some target => _coerce_type globals parse target value
    | None => ret value
    end.
Proof. apply coerce_union_with_none. Qed.

Lemma X4_union_coerces_to_first_alternative_witness :
  _coerce_type Examples.globals (parse_obj 1 Examples.globals)
    (HAlias OUnion [HPlain "int"; HModel "Inner"; HNoneType])
    (VDict [(VStr "v", VInt 1)])
  = ret (VDict [(VStr "v", VInt 1)]).
Proof.
  refine (eq_trans
            (X4_union_coerces_to_first_alternative Examples.globals
               (parse_obj 1 Examples.globals)
               [HPlain "int"; HModel "Inner"; HNoneType]
               (VDict [(VStr "v", VInt 1)]) eq_refl) _).
  reflexivity.
Defined.

(** ** Sequences: values that cannot be iterated, and strings *)

Lemma iterate_never_iterable value :
  never_iterable value = true ->
  iterate value = raise (TypeError ("'" ++ type_name value ++ "' object is not iterable")).
Proof. destruct value; try discriminate; reflexivity. Qed.

(** X5: for a sequence hint, None, a boolean or an integer makes coercion
    raise the [TypeError] of a value that is not iterable, whatever the
    element type; so a field with such a hint and no validator that the
    mapping sets to an explicit null (or to a number) makes construction
    fail: it never returns an instance. *)
Theorem X5_sequence_of_non_iterable_raises globals origin T rest value :
  origin_in_sequences (Some origin) = true ->
  never_iterable value = true ->
  (forall parse,
     _coerce_type globals parse (HAlias origin (T :: rest)) value
     = raise (TypeError ("'" ++ type_name value ++ "' object is not iterable"))) /\
  (forall cls data name hints fuel t inst,
     get_type_hints globals cls = Ok hints ->
     (name, HAlias origin (T :: rest)) ∈ hints -> startswith "__" name = false ->
     validators_of cls !! name = None ->
     data !! name = Some value ->
     __init__ fuel globals cls data <> (t, Ok inst)).
Proof.
  intros Ho Hiter.
  assert (Hco : forall parse,
             _coerce_type globals parse (HAlias origin (T :: rest)) value
             = raise (TypeError ("'" ++ type_name value ++ "' object is not iterable"))).
  { intros parse. rewrite coerce_sequence by exact Ho.
    rewrite iterate_never_iterable by exact Hiter. reflexivity. }
  split; [exact Hco |].
  intros cls data name hints fuel t inst Hhints Hin Hnd Hv Hdata Hrun.
  destruct inst as [| | | | | | | c attrs |];
    try (apply init_Ok_inv in Hrun as (? & ? & ? & _ & _ & _ & [=]); fail).
  destruct (init_stores _ _ _ _ _ _ _ _ _ _ Hrun Hhints Hin Hnd) as (n & t' & v & _ & Hf & _).
  unfold init_field in Hf.
  rewrite (resolve_value_present _ _ _ _ _ Hdata), bind_ret_l in Hf.
  rewrite apply_validators_none, bind_ret_l in Hf by exact Hv.
  rewrite Hco in Hf. discriminate.
Qed.

Lemma X5_sequence_of_non_iterable_raises_witness :
  _coerce_type Examples.globals (parse_obj 1 Examples.globals)
    (HAlias OList [HModel "Inner"]) VNone
  = raise (TypeError "'NoneType' object is not iterable") /\
  forall fuel t inst,
    __init__ fuel Examples.globals Examples.Outer2 {[ "items" := VNone ]} <> (t, Ok inst).
Proof.
  destruct (X5_sequence_of_non_iterable_raises Examples.globals OList (HModel "Inner") []
              VNone eq_refl eq_refl) as [Hco Hinit].
  split; [apply Hco |].
  intros fuel t inst.
  refine (Hinit Examples.Outer2 {[ "items" := VNone ]} "items"
            (cls_annotations BaseModel ++ [("items", HAlias OList [HModel "Inner"])])
            fuel t inst _ _ eq_refl eq_refl eq_refl).
  - vm_compute. reflexivity.
  - apply elem_of_app. right. left.
Defined.

Lemma length_chars s : length (chars s) = String.length s.
Proof. induction s as [| c s IH]; cbn; [reflexivity | rewrite IH; reflexivity]. Qed.

(** X6: for a sequence hint whose element type selects no branch of the
    coercion ([List[str]], say), a string is not rejected: it is iterated, and
    coercion returns the list of its characters, one string of length one per
    character (a string being a sequence of one-byte characters here). *)
Theorem X6_string_becomes_list_of_characters globals parse origin T rest s :
  origin_in_sequences (Some origin) = true ->
  descriptor_kind T = DScalar ->
  _coerce_type globals parse (HAlias origin (T :: rest)) (VStr s) = ret (VList (chars s)) /\
  length (chars s) = String.length s.
Proof.
  intros Ho HT. split; [| apply length_chars].
  rewrite coerce_sequence by exact Ho. cbn [iterate]. rewrite bind_ret_l.
  rewrite (mapM_ret _ (fun x => x)).
  - rewrite bind_ret_l, map_id. reflexivity.
  - intros x _. apply coerce_scalar. exact HT.
Qed.

Lemma X6_string_becomes_list_of_characters_witness :
  _coerce_type Examples.globals (parse_obj 1 Examples.globals)
    (HAlias OList [HPlain "str"]) (VStr "ab")
  = ret (VList [VStr "a"; VStr "b"]).
Proof.
  apply (X6_string_becomes_list_of_characters Examples.globals
           (parse_obj 1 Examples.globals) OList (HPlain "str") [] "ab");
    reflexivity.
Defined.

(** ** Mappings *)

Lemma coerce_mapping globals parse origin key_type value_type value :
  origin_in_mappings (Some origin) = true ->
  _coerce_type globals parse (HAlias origin [key_type; value_type]) value =
  (kvs <- items value ;;
   d <- foldM
          (fun d '(key, val) =>
             k <- _coerce_type globals parse key_type key ;;
             v <- _coerce_type globals parse value_type val ;;
             if hashable k then ret (dict_setitem d k v)
             else raise (TypeError ("unhashable type: '" ++ type_name k ++ "'")%string))
          kvs [] ;;
   ret (VDict d)).
Proof. destruct origin; try discriminate; reflexivity. Qed.

Lemma dict_setitem_fresh d k v :
  fresh_key (map fst d) k = true -> dict_setitem d k v = d ++ [(k, v)].
Proof.
  induction d as [| [k' v'] d IH]; cbn; [reflexivity |].
  intros H. apply andb_true_iff in H as [Hne Hrest].
  apply negb_true_iff in Hne. rewrite Hne, IH by exact Hrest. reflexivity.
Qed.

Lemma coerce_entries globals parse key_type value_type kvs d :
  descriptor_kind key_type = DScalar ->
  dict_keys_ok (map fst d) (map fst kvs) = true ->
  foldM
    (fun d '(key, val) =>
       k <- _coerce_type globals parse key_type key ;;
       v <- _coerce_type globals parse value_type val ;;
       if hashable k then ret (dict_setitem d k v)
       else raise (TypeError ("unhashable type: '" ++ type_name k ++ "'")%string))
    kvs d =
  (vs <- mapM (_coerce_type globals parse value_type) (map snd kvs) ;;
   ret (d ++ zip (map fst kvs) vs)).
Proof.
  intros HK. revert d. induction kvs as [| [key val] kvs IH]; intros d Hok.
  - cbn [map mapM foldM]. rewrite bind_ret_l. cbn. rewrite app_nil_r. reflexivity.
  - cbn [map fst snd dict_keys_ok] in Hok.
    apply andb_true_iff in Hok as [Hok Hrest]. apply andb_true_iff in Hok as [Hhash Hfresh].
    cbn [map snd fst foldM mapM].
    rewrite coerce_scalar, bind_ret_l by exact HK.
    rewrite !bind_assoc.
    destruct (_coerce_type globals parse value_type val) as [t [v | e |]]; try reflexivity.
    cbn [bind]. rewrite Hhash, bind_ret_l, dict_setitem_fresh by exact Hfresh.
    rewrite IH.
    2:{ rewrite map_app. exact Hrest. }
    rewrite bind_assoc.
    destruct (mapM (_coerce_type globals parse value_type) (map snd kvs))
      as [t' [vs | e |]]; try reflexivity.
    cbn [bind]. rewrite !bind_ret_l. cbn [zip zip_with ret]. rewrite <- app_assoc.
    reflexivity.
Qed.

(** X7: for a mapping hint [Dict[K, V]], a value of a built-in type that has
    no attribute [items] (None, a boolean, an integer, a string, a list, a
    tuple) makes coercion raise [AttributeError], whatever [K] and [V]. *)
Theorem X7_mapping_of_non_dict_raises globals parse origin key_type value_type value :
  origin_in_mappings (Some origin) = true ->
  without_items value = true ->
  _coerce_type globals parse (HAlias origin [key_type; value_type]) value
  = raise (AttributeError ("'" ++ type_name value ++ "' object has no attribute 'items'")).
Proof.
  intros Ho Hd. rewrite coerce_mapping by exact Ho.
  destruct value; try discriminate Hd; reflexivity.
Qed.

Lemma X7_mapping_of_non_dict_raises_witness :
  _coerce_type Examples.globals (parse_obj 1 Examples.globals)
    (HAlias ODict [HPlain "str"; HPlain "float"]) VNone
  = raise (AttributeError "'NoneType' object has no attribute 'items'").
Proof.
  apply (X7_mapping_of_non_dict_raises Examples.globals (parse_obj 1 Examples.globals)
           ODict (HPlain "str") (HPlain "float") VNone); reflexivity.
Defined.

(** X8: for a mapping hint [Dict[K, V]] whose key type selects no branch of
    the coercion, a dictionary is coerced value by value, in the order of its
    entries: the result is a new dictionary with the same keys in the same
    order, each with its value coerced to [V]; the first value that cannot be
    coerced aborts the coercion. *)
Theorem X8_mapping_keeps_keys_and_coerces_values globals parse origin key_type value_type kvs :
  origin_in_mappings (Some origin) = true ->
  descriptor_kind key_type = DScalar ->
  dict_keys_ok [] (map fst kvs) = true ->
  _coerce_type globals parse (HAlias origin [key_type; value_type]) (VDict kvs) =
    (vs <- mapM (_coerce_type globals parse value_type) (map snd kvs) ;;
     ret (VDict (zip (map fst kvs) vs))) /\
  (forall t r,
     _coerce_type globals parse (HAlias origin [key_type; value_type]) (VDict kvs)
       = (t, Ok r) ->
     exists entries, r = VDict entries /\ map fst entries = map fst kvs /\
       Forall2 (fun val v => exists t', _coerce_type globals parse value_type val = (t', Ok v))
         (map snd kvs) (map snd entries)).
Proof.
  intros Ho HK Hok.
  assert (Heq : _coerce_type globals parse (HAlias origin [key_type; value_type]) (VDict kvs) =
                (vs <- mapM (_coerce_type globals parse value_type) (map snd kvs) ;;
                 ret (VDict (zip (map fst kvs) vs)))).
  { rewrite coerce_mapping by exact Ho. cbn [items]. rewrite bind_ret_l.
    rewrite (coerce_entries _ _ _ _ _ [] HK Hok), bind_assoc.
    destruct (mapM (_coerce_type globals parse value_type) (map snd kvs))
      as [t [vs | e |]]; reflexivity. }
  split; [exact Heq |].
  intros t r Hrun. rewrite Heq in Hrun.
  apply bind_Ok in Hrun as (t1 & vs & t2 & Hmap & Hret & _).
  unfold ret in Hret. injection Hret as _ <-.
  apply mapM_Ok_inv in Hmap.
  assert (Hlen : length (map fst kvs) = length vs).
  { rewrite <- (Forall2_length _ _ _ Hmap), !length_map. reflexivity. }
  exists (zip (map fst kvs) vs). split; [reflexivity |].
  rewrite fst_zip, snd_zip by lia. auto.
Qed.

Lemma X8_mapping_keeps_keys_and_coerces_values_witness :
  _coerce_type Examples.globals (parse_obj 1 Examples.globals)
    (HAlias ODict [HPlain "str"; HModel "Inner"])
    (VDict [(VStr "a", VDict [(VStr "v", VInt 1)]); (VStr "b", VDict [(VStr "v", VInt 2)])])
  = ret (VDict [(VStr "a", VInst "Inner" [("v", VInt 1)]);
                (VStr "b", VInst "Inner" [("v", VInt 2)])]).
Proof.
  refine (eq_trans
            (proj1 (X8_mapping_keeps_keys_and_coerces_values Examples.globals
                      (parse_obj 1 Examples.globals) ODict (HPlain "str") (HModel "Inner")
                      [(VStr "a", VDict [(VStr "v", VInt 1)]);
                       (VStr "b", VDict [(VStr "v", VInt 2)])]
                      eq_refl eq_refl eq_refl)) _).
  vm_compute. reflexivity.
Defined.

(** ** Serialized data is a fixed point of the export *)

Lemma Value_ind_nested (P : Value -> Prop) :
  P VNone ->
  (forall b, P (VBool b)) ->
  (forall z, P (VInt z)) ->
  (forall s, P (VStr s)) ->
  (forall l, Forall P l -> P (VList l)) ->
  (forall l, Forall P l -> P (VTuple l)) ->
  (forall kvs, Forall (fun kv => P (fst kv) /\ P (snd kv)) kvs -> P (VDict kvs)) ->
  (forall c attrs, Forall (fun a => P (snd a)) attrs -> P (VInst c attrs)) ->
  (forall t r, P (VObj t r)) ->
  forall v, P v.
Proof.
  intros HNone HBool HInt HStr HList HTuple HDict HInst HObj.
  fix IH 1. intros v. destruct v as [| b | z | s | l | l | kvs | c attrs | t r].
  - exact HNone.
  - apply HBool.
  - apply HInt.
  - apply HStr.
  - apply HList. induction l as [| x l IHl]; constructor; [apply IH | exact IHl].
  - apply HTuple. induction l as [| x l IHl]; constructor; [apply IH | exact IHl].
  - apply HDict. induction kvs as [| [k x] kvs IHl]; constructor;
      [split; apply IH | exact IHl].
  - apply HInst. induction attrs as [| [k x] attrs IHl]; constructor;
      [apply IH | exact IHl].
  - apply HObj.
Qed.

Lemma export_list_fixed l :
  Forall (fun e => forall f, _export_value f e = ret e) l ->
  forall f, _export_value f (VList l) = ret (VList l).
Proof.
  intros Hall f. cbn [_export_value]. rewrite (mapM_ret _ (fun x => x)).
  - rewrite bind_ret_l, map_id. reflexivity.
  - intros x Hx. rewrite Forall_forall in Hall. apply Hall, Hx.
Qed.

Lemma export_dict_fixed kvs :
  Forall (fun kv => forall f, _export_value f (snd kv) = ret (snd kv)) kvs ->
  forall f, _export_value f (VDict kvs) = ret (VDict kvs).
Proof.
  intros Hall f. cbn [_export_value]. rewrite (mapM_ret _ (fun x => x)).
  - rewrite bind_ret_l, map_id. reflexivity.
  - intros [k v] Hx. rewrite Forall_forall in Hall.
    pose proof (Hall _ Hx f) as Hv. cbn [snd] in Hv.
    rewrite Hv, bind_ret_l. reflexivity.
Qed.

Lemma export_result_fixed dict_of :
  (forall v t e, dict_of v = (t, Ok e) -> forall f, _export_value f e = ret e) ->
  forall v t e, _export_value dict_of v = (t, Ok e) -> forall f, _export_value f e = ret e.
Proof.
  intros Hdict v. induction v as [| b | z | s | l IH | l IH | kvs IH | c attrs IH | ty r]
    using Value_ind_nested; intros t e Hrun;
    try (cbn in Hrun; injection Hrun as <- <-; intros f; reflexivity).
  - cbn [_export_value] in Hrun.
    apply bind_Ok in Hrun as (t1 & r & t2 & Hmap & Hret & _).
    unfold ret in Hret. injection Hret as _ <-.
    apply mapM_Ok_inv in Hmap. apply export_list_fixed.
    induction Hmap as [| x y l r [t' Hxy] Hrest IHrest]; constructor.
    + apply Forall_cons in IH as [IHx _]. eapply IHx, Hxy.
    + apply Forall_cons in IH as [_ IHl]. apply IHrest, IHl.
  - cbn [_export_value] in Hrun.
    apply bind_Ok in Hrun as (t1 & r & t2 & Hmap & Hret & _).
    unfold ret in Hret. injection Hret as _ <-.
    apply mapM_Ok_inv in Hmap. apply export_dict_fixed.
    induction Hmap as [| [k x] y kvs r [t' Hxy] Hrest IHrest]; constructor.
    + apply Forall_cons in IH as [[_ IHx] _].
      apply bind_Ok in Hxy as (t3 & e' & t4 & Hx & Hret & _).
      unfold ret in Hret. injection Hret as _ <-. cbn [snd] in *. eapply IHx, Hx.
    + apply Forall_cons in IH as [_ IHl]. apply IHrest, IHl.
  - cbn [_export_value] in Hrun. eapply Hdict, Hrun.
Qed.

Lemma odict_set_values (Q : Value -> Prop) d k v :
  Forall (fun kv => Q (snd kv)) d -> Q v -> Forall (fun kv : string * Value => Q (snd kv)) (odict_set d k v).
Proof.
  intros Hd Hv. induction d as [| [k' v'] d IH]; cbn.
  - constructor; [exact Hv | constructor].
  - apply Forall_cons in Hd as [Hv' Hd]. destruct (String.eqb k' k).
    + constructor; [exact Hv | exact Hd].
    + constructor; [exact Hv' | apply IH, Hd].
Qed.

Lemma keyed_loop_values {B} (Q : Value -> Prop) skip (key : B -> string) g l acc t acc' :
  keyed_loop skip key g l acc = (t, Ok acc') ->
  Forall (fun kv => Q (snd kv)) acc ->
  (forall x t' v, x ∈ l -> g x = (t', Ok v) -> Q v) ->
  Forall (fun kv => Q (snd kv)) acc'.
Proof.
  revert acc t. induction l as [| x l IH]; intros acc t Hloop Hacc Hg.
  - injection Hloop as <- <-. exact Hacc.
  - rewrite keyed_loop_cons in Hloop. destruct (skip (key x)).
    + eapply IH; eauto. intros y t' v Hy. apply Hg. right. exact Hy.
    + apply bind_Ok in Hloop as (t1 & v & t2 & Hgx & Hrest & _).
      eapply IH; [exact Hrest | |].
      * apply odict_set_values; [exact Hacc |]. eapply Hg; [left | exact Hgx].
      * intros y t' v' Hy. apply Hg. right. exact Hy.
Qed.

Lemma dict_result_fixed n globals v t e :
  dict n globals v = (t, Ok e) -> forall f, _export_value f e = ret e.
Proof.
  revert v t e. induction n as [| n IH]; intros v t e Hrun; [discriminate |].
  cbn [dict] in Hrun. destruct v as [| | | | | | | c attrs |]; try discriminate.
  destruct (globals !! c) as [cls |]; [| discriminate].
  destruct (get_type_hints globals cls) as [hints | err |]; try discriminate.
  rewrite bind_lift_Ok, dict_loop_keyed in Hrun.
  apply bind_Ok in Hrun as (t1 & result & t2 & Hloop & Hret & _).
  unfold ret in Hret. injection Hret as _ <-.
  apply export_dict_fixed.
  apply (keyed_loop_values (fun v => forall f, _export_value f v = ret v)) in Hloop.
  - unfold str_keys. apply Forall_fmap. eapply Forall_impl; [exact Hloop |].
    intros [k x] Hx. exact Hx.
  - constructor.
  - intros [name hint] t' x _ Hentry. unfold dict_entry in Hentry. cbn [fst] in Hentry.
    apply bind_Ok in Hentry as (t3 & value & t4 & _ & Hexp & _).
    eapply export_result_fixed; [| exact Hexp]. exact (IH).
Qed.

(** X9: what [_export_value] returns is a fixed point of [_export_value]:
    exporting exported data again, with whatever [dict] for instances, returns
    it as it is.  So serialized data holds no instance in a list, in a value of
    a dictionary or at its top, and the same holds for the result of [dict]. *)
Theorem X9_exported_data_is_fixed n globals v t e :
  _export_value (dict n globals) v = (t, Ok e) \/ dict n globals v = (t, Ok e) ->
  forall dict_of, _export_value dict_of e = ret e.
Proof.
  intros [Hrun | Hrun].
  - eapply export_result_fixed; [| exact Hrun].
    intros v' t' e'. apply dict_result_fixed.
  - eapply dict_result_fixed, Hrun.
Qed.

Lemma X9_exported_data_is_fixed_witness :
  _export_value (dict 1 Examples.globals) (VList [VInst "Inner" [("v", VInt 1)]])
  = ret (VList [VDict [(VStr "__field_defaults__", VDict []);
                       (VStr "__validators__", VDict []); (VStr "v", VInt 1)]]) /\
  forall dict_of,
    _export_value dict_of
      (VList [VDict [(VStr "__field_defaults__", VDict []);
                     (VStr "__validators__", VDict []); (VStr "v", VInt 1)]])
    = ret (VList [VDict [(VStr "__field_defaults__", VDict []);
                         (VStr "__validators__", VDict []); (VStr "v", VInt 1)]]).
Proof.
  split; [vm_compute; reflexivity |].
  apply (X9_exported_data_is_fixed 1 Examples.globals
           (VList [VInst "Inner" [("v", VInt 1)]]) []).
  left. vm_compute. reflexivity.
Defined.

(** ** Parsing what [dict] returned *)

Lemma init_field_pipeline globals parse cls data name hint :
  init_field globals parse cls data name hint =
  (value <- resolve_value cls data name hint ;;
   field_pipeline globals parse cls name hint value).
Proof. reflexivity. Qed.

Lemma keywords_str_keys kw : keywords (str_keys kw) = Ok kw.
Proof.
  induction kw as [| [k v] kw IH]; [reflexivity |].
  unfold str_keys in *. cbn [fmap list_fmap keywords]. rewrite IH. reflexivity.
Qed.

Lemma list_to_map_odict_get (kw : list (string * Value)) k :
  (list_to_map kw : gmap string Value) !! k = odict_get kw k.
Proof.
  induction kw as [| [k' v] kw IH]; [apply lookup_empty |].
  cbn [list_to_map foldr odict_get fst snd]. destruct (String.eqb k' k) eqn:E.
  - apply String.eqb_eq in E as ->. apply lookup_insert_eq.
  - rewrite lookup_insert_ne; [exact IH |].
    intros ->. rewrite String.eqb_refl in E. discriminate.
Qed.

Lemma no_self_keyword (kw : list (string * Value)) :
  "self" ∉ map fst kw -> existsb (fun '(k, _) => String.eqb k "self") kw = false.
Proof.
  induction kw as [| [k v] kw IH]; [reflexivity |]. cbn. intros H.
  apply not_elem_of_cons in H as [Hne H]. rewrite IH by exact H.
  destruct (String.eqb k "self") eqn:E; [apply String.eqb_eq in E; congruence | reflexivity].
Qed.

Lemma odict_ext {A} (l1 l2 : list (string * A)) :
  map fst l1 = map fst l2 ->
  NoDup (map fst l1) ->
  (forall k, k ∈ map fst l1 -> odict_get l1 k = odict_get l2 k) ->
  l1 = l2.
Proof.
  revert l2. induction l1 as [| [k1 v1] l1 IH]; intros [| [k2 v2] l2]; try discriminate;
    [reflexivity |].
  cbn [map fst]. intros [= <- Hkeys] Hnd Hget. apply NoDup_cons in Hnd as [Hnew Hnd].
  pose proof (Hget k1 ltac:(left)) as H1. cbn [odict_get] in H1.
  rewrite String.eqb_refl in H1. injection H1 as <-.
  f_equal. apply IH; [exact Hkeys | exact Hnd |].
  intros k Hk. specialize (Hget k ltac:(right; exact Hk)). cbn [odict_get] in Hget.
  destruct (String.eqb k1 k) eqn:E; [| exact Hget].
  apply String.eqb_eq in E as ->. contradiction.
Qed.

Lemma parse_of_dict globals cls hints n m k data t attrs t' d :
  globals !! cls_name cls = Some cls ->
  get_type_hints globals cls = Ok hints ->
  "self" ∉ map fst hints ->
  __init__ n globals cls data = (t, Ok (VInst (cls_name cls) attrs)) ->
  dict (S m) globals (VInst (cls_name cls) attrs) = (t', Ok d) ->
  (forall name hint v te e,
     (name, hint) ∈ hints -> startswith "__" name = false ->
     odict_get attrs name = Some v ->
     _export_value (dict m globals) v = (te, Ok e) ->
     exists tf,
       field_pipeline globals (call_with_keywords (__init__ k globals)) cls name hint e
       = (tf, Ok v)) ->
  exists t'', parse_obj (S k) globals cls d = (t'', Ok (VInst (cls_name cls) attrs)).
Proof.
  intros Hc Hhints Hself Hinit Hdict Hfield.
  pose proof (get_type_hints_NoDup _ _ _ Hhints) as Hnd.
  pose proof (init_attribute_names _ _ _ _ _ _ _ _ Hinit Hhints) as Hnames.
  rewrite (dict_unfold _ _ _ _ _ _ Hc Hhints) in Hdict.
  apply bind_Ok in Hdict as (t1 & result & t2 & Hloop & Hret & _).
  unfold ret in Hret. injection Hret as _ <-.
  pose proof (keyed_loop_keys _ _ _ _ _ _ _ Hloop) as Hkeys.
  rewrite kept_keys_all in Hkeys. cbn [map app] in Hkeys. specialize (Hkeys Hnd).
  (* every field is rebuilt from its serialized value *)
  assert (Hround : forall name hint, (name, hint) ∈ hints -> startswith "__" name = false ->
            exists tf v,
              odict_get attrs name = Some v /\
              init_field globals (call_with_keywords (__init__ k globals)) cls
                (list_to_map result) name hint = (tf, Ok v)).
  { intros name hint Hin Hdunder.
    destruct (init_stores _ _ _ _ _ _ _ _ _ _ Hinit Hhints Hin Hdunder)
      as (n' & t3 & v & _ & _ & Hget).
    destruct (keyed_loop_get _ _ _ _ _ _ _ (name, hint) Hloop) as (t4 & e & Hentry & Hres).
    { rewrite kept_keys_all. exact Hnd. }
    { exact Hin. }
    { reflexivity. }
    cbn [fst] in Hentry, Hres. unfold dict_entry, getattr in Hentry.
    rewrite Hget, bind_ret_l in Hentry.
    destruct (Hfield name hint v t4 e Hin Hdunder Hget Hentry) as (tf & Hpipe).
    exists tf, v. split; [exact Hget |].
    rewrite init_field_pipeline. unfold resolve_value.
    rewrite list_to_map_odict_get, Hres, bind_ret_l. exact Hpipe. }
  destruct (keyed_loop_Ok (startswith "__") fst
              (fun x : string * Hint =>
                 init_field globals (call_with_keywords (__init__ k globals)) cls
                   (list_to_map result) (fst x) (snd x)) hints [])
    as (t5 & attrs' & Hloop').
  { intros [name hint] Hin Hdunder. cbn [fst snd] in *.
    destruct (Hround name hint Hin Hdunder) as (tf & v & _ & Hf). eauto. }
  assert (Hsame : attrs' = attrs).
  { pose proof (keyed_loop_keys _ _ _ _ _ _ _ Hloop') as Hkeys'.
    cbn [map app] in Hkeys'. rewrite <- field_names_kept in Hkeys'.
    specialize (Hkeys' (field_names_NoDup _ Hnd)).
    apply odict_ext.
    - rewrite Hkeys', Hnames. reflexivity.
    - rewrite Hkeys'. apply field_names_NoDup, Hnd.
    - intros name Hname. rewrite Hkeys' in Hname.
      pose proof (field_names_not_dunder _ _ Hname) as Hdunder.
      unfold field_names in Hname.
      apply list_elem_of_In, List.filter_In in Hname as [Hname _].
      apply list_elem_of_In, list_elem_of_fmap in Hname as ([name' hint] & -> & Hin).
      cbn [fst] in *.
      destruct (keyed_loop_get _ _ _ _ _ _ _ (name', hint) Hloop')
        as (t6 & v' & Hf' & Hget').
      { rewrite <- field_names_kept. apply field_names_NoDup, Hnd. }
      { exact Hin. }
      { exact Hdunder. }
      cbn [fst snd] in Hf', Hget'.
      destruct (Hround name' hint Hin Hdunder) as (tf & v & Hget & Hf).
      rewrite Hf in Hf'. injection Hf' as _ <-. rewrite Hget, Hget'. reflexivity. }
  subst attrs'.
  exists (t5 ++ []). unfold parse_obj, call_with_keywords.
  rewrite keywords_str_keys, bind_lift_Ok, no_self_keyword by (rewrite Hkeys; exact Hself).
  cbn [__init__]. unfold init_body.
  rewrite Hhints, bind_lift_Ok, init_loop_keyed, Hloop'. reflexivity.
Qed.

(** X10: parsing what [dict] returned rebuilds the instance.  For an instance
    that [__init__] returned, of a class that has no field called [self]: when
    the serialized value of each field, put through the validators and the
    coercion of the field again, gives back the stored value, [parse_obj] of
    the serialized instance returns an equal instance.  The keys of the two
    registries in the serialized form do no harm, and no default is used. *)
Theorem X10_parse_of_dict_rebuilds_instance globals cls hints n m k data t attrs t' d :
  globals !! cls_name cls = Some cls ->
  get_type_hints globals cls = Ok hints ->
  "self" ∉ map fst hints ->
  __init__ n globals cls data = (t, Ok (VInst (cls_name cls) attrs)) ->
  dict (S m) globals (VInst (cls_name cls) attrs) = (t', Ok d) ->
  (forall name hint v te e,
     (name, hint) ∈ hints -> startswith "__" name = false ->
     odict_get attrs name = Some v ->
     _export_value (dict m globals) v = (te, Ok e) ->
     exists tf,
       field_pipeline globals (call_with_keywords (__init__ k globals)) cls name hint e
       = (tf, Ok v)) ->
  exists t'', parse_obj (S k) globals cls d = (t'', Ok (VInst (cls_name cls) attrs)).
Proof. apply parse_of_dict. Qed.

Lemma X10_parse_of_dict_rebuilds_instance_witness :
  exists t'',
    parse_obj 2 Examples.globals Examples.Outer
      (VDict [(VStr "__field_defaults__", VDict []); (VStr "__validators__", VDict []);
              (VStr "item",
               VDict [(VStr "__field_defaults__", VDict []);
                      (VStr "__validators__", VDict []); (VStr "v", VInt 5)])])
    = (t'', Ok (VInst "Outer" [("item", VInst "Inner" [("v", VInt 5)])])).
Proof.
  refine (X10_parse_of_dict_rebuilds_instance Examples.globals Examples.Outer
            (cls_annotations BaseModel ++ [("item", HModel "Inner")])
            2 1 1 {[ "item" := VDict [(VStr "v", VInt 5)] ]} []
            [("item", VInst "Inner" [("v", VInt 5)])] [] _
            eq_refl _ _ _ _ _).
  - vm_compute. reflexivity.
  - cbn. intros H.
    repeat (apply elem_of_cons in H as [H | H]; [discriminate H |]). inversion H.
  - vm_compute. reflexivity.
  - vm_compute. reflexivity.
  - intros name hint v te e Hin Hdunder Hget Hexp.
    apply elem_of_app in Hin as [Hin | Hin].
    + exfalso. cbn in Hin.
      apply elem_of_cons in Hin as [[= -> ->] | Hin]; [discriminate Hdunder |].
      apply elem_of_cons in Hin as [[= -> ->] | Hin]; [discriminate Hdunder | inversion Hin].
    + apply elem_of_cons in Hin as [[= -> ->] | Hin]; [| inversion Hin].
      cbn in Hget. injection Hget as <-.
      vm_compute in Hexp. injection Hexp as _ <-.
      exists []. vm_compute. reflexivity.
Defined.

(** ** The keys of the mapping given to [parse_obj] *)

Lemma keywords_non_string kvs :
  (exists k v, (k, v) ∈ kvs /\ forall s, k <> VStr s) ->
  keywords kvs = Raise (TypeError "keywords must be strings").
Proof.
  induction kvs as [| [k0 v0] kvs IH]; intros (k & v & Hin & Hk); [inversion Hin |].
  apply elem_of_cons in Hin as [[= <- <-] | Hin].
  - destruct k; try reflexivity. exfalso. eapply Hk. reflexivity.
  - cbn [keywords]. rewrite IH by eauto. destruct k0; reflexivity.
Qed.

Lemma self_keyword (kw : list (string * Value)) :
  "self" ∈ map fst kw -> existsb (fun '(k, _) => String.eqb k "self") kw = true.
Proof.
  induction kw as [| [k v] kw IH]; cbn; intros H; [inversion H |].
  apply elem_of_cons in H as [<- | H]; [reflexivity |].
  rewrite IH by exact H. apply orb_true_r.
Qed.

(** X11: [parse_obj] hands the keys of the mapping to [__init__] as keyword
    arguments.  A key that is not a string makes it raise [TypeError] before
    the class is looked at; so does the key [self], which collides with the
    parameter of [__init__]; with string keys other than [self], it is
    [__init__] on these keywords. *)
Theorem X11_parse_obj_keys fuel globals cls :
  (forall kvs,
     (exists k v, (k, v) ∈ kvs /\ forall s, k <> VStr s) ->
     parse_obj fuel globals cls (VDict kvs) = raise (TypeError "keywords must be strings")) /\
  (forall kw,
     "self" ∈ map fst kw ->
     parse_obj fuel globals cls (VDict (str_keys kw))
     = raise (TypeError "BaseModel.__init__() got multiple values for argument 'self'")) /\
  (forall kw,
     "self" ∉ map fst kw ->
     parse_obj fuel globals cls (VDict (str_keys kw))
     = __init__ fuel globals cls (list_to_map kw)).
Proof.
  unfold parse_obj, call_with_keywords. repeat split.
  - intros kvs Hk. rewrite keywords_non_string by exact Hk. reflexivity.
  - intros kw Hself. rewrite keywords_str_keys, bind_lift_Ok, self_keyword by exact Hself.
    reflexivity.
  - intros kw Hself. rewrite keywords_str_keys, bind_lift_Ok, no_self_keyword by exact Hself.
    reflexivity.
Qed.

Lemma X11_parse_obj_keys_witness :
  parse_obj 1 Examples.globals Examples.Inner (VDict [(VStr "v", VInt 1); (VInt 2, VInt 3)])
  = raise (TypeError "keywords must be strings").
Proof.
  apply (proj1 (X11_parse_obj_keys 1 Examples.globals Examples.Inner)).
  exists (VInt 2), (VInt 3). split; [right; left | discriminate].
Defined.

(** ** Forward references that the module does not define *)

Lemma update_hints_unresolved globals ann hints name hint missing :
  (name, hint) ∈ ann ->
  unresolved globals hint = Some missing ->
  exists missing',
    update_hints globals hints ann
    = Raise (NameError ("name '" ++ missing' ++ "' is not defined")).
Proof.
  revert hints. induction ann as [| [n h] ann IH]; intros hints Hin Hun; [inversion Hin |].
  cbn [update_hints]. unfold eval_annotation.
  destruct (unresolved globals h) as [m |] eqn:Hh; [eauto |].
  apply elem_of_cons in Hin as [[= -> ->] | Hin]; [congruence |].
  eapply IH; eauto.
Qed.

Lemma hints_of_mro_unresolved globals classes hints c name hint missing :
  c ∈ classes ->
  (name, hint) ∈ cls_annotations c ->
  unresolved globals hint = Some missing ->
  exists missing',
    hints_of_mro globals hints classes
    = Raise (NameError ("name '" ++ missing' ++ "' is not defined")).
Proof.
  revert hints. induction classes as [| b classes IH]; intros hints Hc Hin Hun;
    [inversion Hc |].
  cbn [hints_of_mro].
  destruct (update_hints globals hints (cls_annotations b)) as [hints' | e |] eqn:Hu.
  - apply elem_of_cons in Hc as [-> | Hc]; [| eapply IH; eauto].
    destruct (update_hints_unresolved globals _ hints _ _ _ Hin Hun) as (m & Hm). congruence.
  - assert (Hname : forall hs ann e',
               update_hints globals hs ann = Raise e' ->
               exists m, e' = NameError ("name '" ++ m ++ "' is not defined")).
    { intros hs ann. revert hs. induction ann as [| [n h] ann IHann]; intros hs e';
        cbn [update_hints]; [discriminate |].
      unfold eval_annotation. destruct (unresolved globals h) as [m |].
      - intros [= <-]. eauto.
      - apply IHann. }
    destruct (Hname _ _ _ Hu) as (m & ->). eauto.
  - exfalso. revert Hu. generalize (cls_annotations b). intros ann. revert hints.
    induction ann as [| [n h] ann IHann]; intros hs; cbn [update_hints]; [discriminate |].
    unfold eval_annotation. destruct (unresolved globals h); [discriminate | apply IHann].
Qed.

(** X15: when an annotation of a class, or of one of its ancestors, names a
    model class that the module does not define, no instance of the class can
    be built: [__init__] raises [NameError] before it reads the mapping and
    before any validator is called, whatever the mapping holds and even when
    the field has a default. *)
Theorem X15_undefined_forward_reference globals cls c name hint missing :
  c ∈ mro cls ->
  (name, hint) ∈ cls_annotations c ->
  unresolved globals hint = Some missing ->
  exists missing',
    get_type_hints globals cls = Raise (NameError ("name '" ++ missing' ++ "' is not defined")) /\
    forall fuel data,
      __init__ (S fuel) globals cls data
      = raise (NameError ("name '" ++ missing' ++ "' is not defined")).
Proof.
  intros Hc Hin Hun. unfold get_type_hints.
  destruct (hints_of_mro_unresolved globals (rev (mro cls)) [] c name hint missing)
    as (m & Hm);
    [apply list_elem_of_In; apply -> List.in_rev; apply list_elem_of_In; exact Hc
    | exact Hin | exact Hun |].
  exists m. split; [exact Hm |].
  intros fuel data. cbn [__init__]. unfold init_body, get_type_hints. rewrite Hm.
  reflexivity.
Qed.

Lemma X15_undefined_forward_reference_witness :
  exists missing',
    get_type_hints ∅ Examples.Outer
      = Raise (NameError ("name '" ++ missing' ++ "' is not defined")) /\
    forall fuel data,
      __init__ (S fuel) ∅ Examples.Outer data
      = raise (NameError ("name '" ++ missing' ++ "' is not defined")).
Proof.
  refine (X15_undefined_forward_reference ∅ Examples.Outer Examples.Outer
            "item" (HModel "Inner") "Inner" _ _ eq_refl).
  - left.
  - left.
Defined.

(** ** [json] and the registries *)

Lemma json_dumps_list_Ok enc l s :
  json_dumps enc (VList l) = Ok s \/ json_dumps enc (VTuple l) = Ok s ->
  forall x, x ∈ l -> exists s', json_dumps enc x = Ok s'.
Proof.
  intros Hrun.
  assert (Hel : exists ss,
             (fix elements (l : list Value) : Res (list string) :=
                match l with
                | [] => Ok []
                | x :: r =>
                    rbind (json_dumps enc x)
                      (fun s => rbind (elements r) (fun ss => Ok (s :: ss)))
                end) l = Ok ss).
  { destruct Hrun as [Hrun | Hrun]; cbn [json_dumps] in Hrun;
      match type of Hrun with rbind ?e _ = _ => destruct e as [ss | |] eqn:E end;
      try discriminate; eauto. }
  clear Hrun. destruct Hel as (ss & Hel). revert ss Hel.
  induction l as [| y l IH]; intros ss Hel x Hx; [inversion Hx |].
  destruct (json_dumps enc y) as [sy | |] eqn:Hy; try discriminate.
  cbn [rbind] in Hel.
  match type of Hel with rbind ?e _ = _ => destruct e as [ss' | |] eqn:E end;
    try discriminate.
  apply elem_of_cons in Hx as [-> | Hx]; [eauto | eapply IH; eauto].
Qed.

Lemma json_dumps_dict_Ok enc kvs s :
  json_dumps enc (VDict kvs) = Ok s ->
  forall k x, (k, x) ∈ kvs -> exists s', json_dumps enc x = Ok s'.
Proof.
  intros Hrun. cbn [json_dumps] in Hrun.
  match type of Hrun with rbind ?e _ = _ => destruct e as [ss | |] eqn:Hel end;
    try discriminate.
  clear Hrun. revert ss Hel.
  induction kvs as [| [k0 y] kvs IH]; intros ss Hel k x Hx; [inversion Hx |].
  destruct (json_key k0) as [ks | |]; try discriminate. cbn [rbind] in Hel.
  destruct (json_dumps enc y) as [sy | |] eqn:Hy; try discriminate. cbn [rbind] in Hel.
  match type of Hel with rbind ?e _ = _ => destruct e as [ss' | |] eqn:E end;
    try discriminate.
  apply elem_of_cons in Hx as [[= -> ->] | Hx]; [eauto | eapply IH; eauto].
Qed.

Lemma json_dumps_field_defaults enc (fd : gmap string FieldInfo) s :
  fd <> ∅ -> json_dumps enc (field_defaults_value fd) <> Ok s.
Proof.
  intros Hne Hrun. unfold field_defaults_value in Hrun.
  destruct (map_to_list fd) as [| [k fi] l] eqn:Hl.
  - apply map_to_list_empty_iff in Hl. contradiction.
  - destruct (json_dumps_dict_Ok _ _ _ Hrun (VStr k) (VObj "FieldInfo" k)) as (s' & Hs);
      [left | discriminate Hs].
Qed.

Lemma json_dumps_validators enc (vs : gmap string (list (Validator * bool))) name f funcs s :
  vs !! name = Some (f :: funcs) -> json_dumps enc (validators_value vs) <> Ok s.
Proof.
  intros Hname Hrun. unfold validators_value in Hrun.
  apply elem_of_map_to_list in Hname.
  destruct (json_dumps_dict_Ok _ _ _ Hrun (VStr name)
              (VList ((fun '(f, pre) => VTuple [VObj "function" (v_name f); VBool pre])
                        <$> (f :: funcs)))) as (s1 & Hs1).
  { apply list_elem_of_fmap. exists (name, f :: funcs). auto. }
  destruct f as [f pre].
  destruct (json_dumps_list_Ok _ _ _ (or_introl Hs1)
              (VTuple [VObj "function" (v_name f); VBool pre]))
    as (s2 & Hs2); [left |].
  destruct (json_dumps_list_Ok _ _ _ (or_intror Hs2) (VObj "function" (v_name f)))
    as (s3 & Hs3); [left | discriminate Hs3].
Qed.

Lemma update_hints_keeps_names globals ann hints hints' x :
  update_hints globals hints ann = Ok hints' ->
  x ∈ map fst hints \/ x ∈ map fst ann -> x ∈ map fst hints'.
Proof.
  intros Hrun Hx. destruct (update_hints_names _ _ _ _ Hrun) as (added & Hkeys & Hadded).
  rewrite Hkeys. apply elem_of_app.
  destruct (decide (x ∈ map fst hints)) as [Hin | Hout]; [left; exact Hin |].
  right. apply Hadded. destruct Hx as [Hx | Hx]; [contradiction | auto].
Qed.

Lemma hints_hold_annotated_names globals cls hints c name hint :
  get_type_hints globals cls = Ok hints ->
  c ∈ mro cls -> (name, hint) ∈ cls_annotations c ->
  name ∈ map fst hints.
Proof.
  unfold get_type_hints. intros Hrun Hc Hin.
  assert (Hc' : c ∈ rev (mro cls))
    by (apply list_elem_of_In; apply -> List.in_rev; apply list_elem_of_In; exact Hc).
  clear Hc. revert Hrun Hc'. generalize (rev (mro cls)) (@nil (string * Hint)).
  intros classes. induction classes as [| b classes IH]; intros acc Hrun Hc; [inversion Hc |].
  cbn [hints_of_mro] in Hrun.
  destruct (update_hints globals acc (cls_annotations b)) as [acc' | |] eqn:Hu;
    try discriminate.
  assert (Hkeep : forall classes acc1 x, hints_of_mro globals acc1 classes = Ok hints ->
                    x ∈ map fst acc1 -> x ∈ map fst hints).
  { clear. induction classes as [| b classes IH]; intros acc1 x; cbn [hints_of_mro].
    - intros [= <-]. auto.
    - destruct (update_hints globals acc1 (cls_annotations b)) as [acc' | |] eqn:Hu;
        try discriminate.
      intros Hrest Hx. eapply IH; [exact Hrest |].
      eapply update_hints_keeps_names; eauto. }
  apply elem_of_cons in Hc as [-> | Hc].
  - eapply Hkeep; [exact Hrun |]. eapply update_hints_keeps_names; [exact Hu |].
    right. apply list_elem_of_fmap. exists (name, hint). auto.
  - eapply IH; eauto.
Qed.

Lemma dict_holds_registry m globals cls hints attrs t d name :
  globals !! cls_name cls = Some cls ->
  get_type_hints globals cls = Ok hints ->
  map fst attrs = field_names hints ->
  name ∈ map fst hints ->
  name = "__field_defaults__" \/ name = "__validators__" ->
  dict m globals (VInst (cls_name cls) attrs) = (t, Ok d) ->
  exists entries,
    d = VDict entries /\
    (VStr name,
     if String.eqb name "__field_defaults__"
     then field_defaults_value (field_defaults_of cls)
     else validators_value (validators_of cls)) ∈ entries.
Proof.
  intros Hc Hhints Hnames Hin Hname Hrun. destruct m as [| m]; [discriminate |].
  rewrite (dict_unfold _ _ _ _ _ _ Hc Hhints) in Hrun.
  apply bind_Ok in Hrun as (t1 & result & t2 & Hloop & Hret & _).
  unfold ret in Hret. injection Hret as _ <-.
  exists (str_keys result). split; [reflexivity |].
  apply list_elem_of_fmap in Hin as ([name' hint] & -> & Hin). cbn [fst] in *.
  destruct (keyed_loop_get _ _ _ _ _ _ _ (name', hint) Hloop) as (t3 & e & Hentry & Hget).
  { rewrite kept_keys_all. eapply get_type_hints_NoDup; eauto. }
  { exact Hin. }
  { reflexivity. }
  cbn [fst] in Hentry, Hget.
  assert (He : e = if String.eqb name' "__field_defaults__"
                   then field_defaults_value (field_defaults_of cls)
                   else validators_value (validators_of cls)).
  { unfold dict_entry, getattr in Hentry. rewrite odict_get_None in Hentry.
    2:{ rewrite Hnames. intros Hf. apply field_names_not_dunder in Hf.
        destruct Hname as [-> | ->]; vm_compute in Hf; discriminate. }
    rewrite Hc in Hentry. destruct (mro_head cls) as (rest & Hmro). rewrite Hmro in Hentry.
    destruct Hname as [-> | ->]; cbn [class_getattr String.eqb Ascii.eqb Bool.eqb] in Hentry;
      rewrite bind_ret_l in Hentry.
    - rewrite export_field_defaults_value in Hentry. injection Hentry as _ <-. reflexivity.
    - rewrite export_validators_value in Hentry. injection Hentry as _ <-. reflexivity. }
  subst e. clear - Hget. induction result as [| [k v] result IH]; [discriminate |].
  cbn [odict_get] in Hget. unfold str_keys. cbn [fmap list_fmap].
  destruct (String.eqb k name') eqn:E.
  - apply String.eqb_eq in E as ->. injection Hget as ->. left.
  - right. apply IH, Hget.
Qed.

Lemma json_of_registry enc globals cls n data t attrs :
  globals !! cls_name cls = Some cls ->
  BaseModel ∈ mro cls ->
  (field_defaults_of cls <> ∅ \/
   exists name f funcs, validators_of cls !! name = Some (f :: funcs)) ->
  __init__ n globals cls data = (t, Ok (VInst (cls_name cls) attrs)) ->
  forall m t' s, json enc m globals (VInst (cls_name cls) attrs) <> (t', Ok s).
Proof.
  intros Hc Hbase Hreg Hinit m t' s Hjson.
  pose proof Hinit as Hinv.
  apply init_Ok_inv in Hinv as (n' & hints & attrs' & _ & Hhints & _ & _).
  pose proof (init_attribute_names _ _ _ _ _ _ _ _ Hinit Hhints) as Hnames.
  unfold json in Hjson. apply bind_Ok in Hjson as (t1 & d & t2 & Hdict & Hdumps & _).
  unfold lift in Hdumps. injection Hdumps as _ Hdumps.
  destruct Hreg as [Hfd | (name & f & funcs & Hvs)].
  - assert (Hname : "__field_defaults__" ∈ map fst hints).
    { eapply hints_hold_annotated_names; [exact Hhints | exact Hbase |]. left. }
    destruct (dict_holds_registry m globals cls hints attrs t1 d "__field_defaults__"
                Hc Hhints Hnames Hname (or_introl eq_refl) Hdict) as (entries & -> & Hin).
    destruct (json_dumps_dict_Ok _ _ _ Hdumps _ _ Hin) as (s' & Hs').
    cbn [String.eqb Ascii.eqb Bool.eqb] in Hs'.
    eapply json_dumps_field_defaults; eauto.
  - assert (Hname : "__validators__" ∈ map fst hints).
    { eapply hints_hold_annotated_names; [exact Hhints | exact Hbase |]. right. left. }
    destruct (dict_holds_registry m globals cls hints attrs t1 d "__validators__"
                Hc Hhints Hnames Hname (or_intror eq_refl) Hdict) as (entries & -> & Hin).
    destruct (json_dumps_dict_Ok _ _ _ Hdumps _ _ Hin) as (s' & Hs').
    cbn [String.eqb Ascii.eqb Bool.eqb] in Hs'.
    eapply json_dumps_validators; eauto.
Qed.

(** X12: [json] never returns for an instance of a class that derives from
    [BaseModel] and registers a field default or a validator.  The loop of
    [dict] exports the two registries of the class with the fields, and
    [json.dumps] refuses the [FieldInfo] objects and the functions they hold;
    this holds whatever the fields hold and however strings are escaped. *)
Theorem X12_json_fails_with_registry encode_basestring_ascii globals cls n data t attrs :
  globals !! cls_name cls = Some cls ->
  BaseModel ∈ mro cls ->
  (field_defaults_of cls <> ∅ \/
   exists name f funcs, validators_of cls !! name = Some (f :: funcs)) ->
  __init__ n globals cls data = (t, Ok (VInst (cls_name cls) attrs)) ->
  forall m t' s,
    json encode_basestring_ascii m globals (VInst (cls_name cls) attrs) <> (t', Ok s).
Proof. apply json_of_registry. Qed.

Lemma X12_json_fails_with_registry_witness :
  __init__ 1 Examples.globals Examples.P ∅ = ([], Ok (VInst "P" [("x", VInt 1)])) /\
  forall m t' s,
    json (fun s => s) m Examples.globals (VInst "P" [("x", VInt 1)]) <> (t', Ok s).
Proof.
  split; [vm_compute; reflexivity |].
  refine (X12_json_fails_with_registry (fun s => s) Examples.globals Examples.P 1 ∅ []
            [("x", VInt 1)] eq_refl _ _ _).
  - right. left.
  - left. intros H.
    assert (Hx : field_defaults_of Examples.P !! "x" = None) by (rewrite H; apply lookup_empty).
    vm_compute in Hx. discriminate.
  - vm_compute. reflexivity.
Defined.

(** ** The loader: sections and scalars *)

(** X13: a document that wraps a section under its key and the bare section
    are unwrapped alike.  When the mapping holds a mapping under the key,
    [_unwrap_section] returns that mapping; applied to the section itself,
    which holds no mapping under the key, it returns the section unchanged:
    in both cases the section is what is parsed. *)
Theorem X13_unwrap_section_accepts_both_layouts data key section :
  dict_get data (VStr key) = Some (VDict section) ->
  (forall inner, dict_get section (VStr key) <> Some (VDict inner)) ->
  _unwrap_section (VDict data) key = Ok (VDict section) /\
  _unwrap_section (VDict section) key = Ok (VDict section).
Proof.
  intros Hdata Hsection. unfold _unwrap_section. rewrite Hdata. split; [reflexivity |].
  destruct (dict_get section (VStr key)) as [[] |] eqn:E; try reflexivity.
  exfalso. eapply Hsection. reflexivity.
Qed.

Lemma X13_unwrap_section_accepts_both_layouts_witness :
  _unwrap_section
    (VDict [(VStr "seed", VInt 1); (VStr "ga", VDict [(VStr "population", VInt 5)])]) "ga"
    = Ok (VDict [(VStr "population", VInt 5)]) /\
  _unwrap_section (VDict [(VStr "population", VInt 5)]) "ga"
    = Ok (VDict [(VStr "population", VInt 5)]).
Proof.
  apply (X13_unwrap_section_accepts_both_layouts
           [(VStr "seed", VInt 1); (VStr "ga", VDict [(VStr "population", VInt 5)])]
           "ga" [(VStr "population", VInt 5)]).
  - reflexivity.
  - intros inner. cbn. discriminate.
Defined.

Lemma append_nil_l (s : string) : ("" ++ s)%string = s.
Proof. reflexivity. Qed.

Lemma append_cons_l (c : ascii) (s1 s2 : string) :
  (String c s1 ++ s2)%string = String c (s1 ++ s2).
Proof. reflexivity. Qed.

Lemma endswith_app suffix s : endswith suffix (s ++ suffix) = true.
Proof.
  induction s as [| c s IH].
  - rewrite append_nil_l. destruct suffix; cbn [endswith];
      rewrite (proj2 (String.eqb_eq _ _) eq_refl); reflexivity.
  - rewrite append_cons_l. cbn [endswith]. rewrite IH. apply orb_true_r.
Qed.

Lemma length_append_string (s1 s2 : string) :
  String.length (s1 ++ s2) = String.length s1 + String.length s2.
Proof.
  induction s1 as [| c s1 IH]; [reflexivity |].
  rewrite append_cons_l. cbn [String.length]. rewrite IH. reflexivity.
Qed.

Lemma substring_prefix (s1 s2 : string) :
  String.substring 0 (String.length s1) (s1 ++ s2) = s1.
Proof.
  induction s1 as [| c s1 IH].
  - rewrite append_nil_l. destruct s2; reflexivity.
  - rewrite append_cons_l. cbn [String.length String.substring]. rewrite IH. reflexivity.
Qed.

Lemma strip_ends_quoted (q : ascii) (s : string) :
  strip_ends (String q (s ++ String q EmptyString)) = s.
Proof.
  unfold strip_ends. cbn [String.length String.substring].
  rewrite length_append_string. cbn [String.length].
  replace (S (String.length s + 1) - 2) with (String.length s) by lia.
  apply substring_prefix.
Qed.

Lemma endswith_quoted (q : ascii) (s : string) :
  endswith (String q EmptyString) (String q (s ++ String q EmptyString)) = true.
Proof.
  cbn [endswith]. rewrite endswith_app. apply orb_true_r.
Qed.

Lemma startswith_same (q : ascii) (rest : string) :
  startswith (String q EmptyString) (String q rest) = true.
Proof.
  unfold startswith. cbn [String.prefix].
  destruct (ascii_dec q q) as [_ | Hne]; [destruct rest; reflexivity | contradiction].
Qed.

Lemma startswith_other (q q' : ascii) (rest : string) :
  q <> q' -> startswith (String q EmptyString) (String q' rest) = false.
Proof.
  intros Hne. unfold startswith. cbn [String.prefix].
  destruct (ascii_dec q q') as [Heq | _]; [contradiction | reflexivity].
Qed.

Lemma parse_quoted py_float py_int parse_inline (q : ascii) (s : string) :
  lower_char q = q ->
  (String.eqb (String q (lower (s ++ String q EmptyString))) "null"
   || String.eqb (String q (lower (s ++ String q EmptyString))) "~") = false ->
  String.eqb (String q (lower (s ++ String q EmptyString))) "true" = false ->
  String.eqb (String q (lower (s ++ String q EmptyString))) "false" = false ->
  (startswith dquote (String q (s ++ String q EmptyString))
   && endswith dquote (String q (s ++ String q EmptyString)) = true \/
   (startswith dquote (String q (s ++ String q EmptyString)) = false /\
    startswith squote (String q (s ++ String q EmptyString))
    && endswith squote (String q (s ++ String q EmptyString)) = true)) ->
  _parse_scalar py_float py_int parse_inline (String q (s ++ String q EmptyString))
  = Ok (VStr s).
Proof.
  intros Hq Hnull Htrue Hfalse Hquote. unfold _parse_scalar. cbn [lower].
  rewrite Hq, Hnull, Htrue, Hfalse.
  destruct Hquote as [-> | [-> ->]]; cbn [andb]; rewrite strip_ends_quoted; reflexivity.
Qed.

(** X14: in the fallback YAML reader a text between two double quotes, or
    between two single quotes, is read as the string between them, whatever
    that string is: a keyword such as null or true, a number, brackets.  No
    number is parsed and no inline structure is read for it.  A lone quote
    character is read as the empty string. *)
Theorem X14_quoted_scalar_is_its_content py_float py_int parse_inline s :
  _parse_scalar py_float py_int parse_inline (dquote ++ s ++ dquote) = Ok (VStr s) /\
  _parse_scalar py_float py_int parse_inline (squote ++ s ++ squote) = Ok (VStr s) /\
  _parse_scalar py_float py_int parse_inline dquote = Ok (VStr "") /\
  _parse_scalar py_float py_int parse_inline squote = Ok (VStr "").
Proof.
  repeat split; try reflexivity.
  - apply (parse_quoted py_float py_int parse_inline (ascii_of_nat 34) s);
      try reflexivity.
    left. change dquote with (String (ascii_of_nat 34) EmptyString).
    rewrite endswith_quoted, startswith_same. reflexivity.
  - apply (parse_quoted py_float py_int parse_inline (ascii_of_nat 39) s);
      try reflexivity.
    right. change dquote with (String (ascii_of_nat 34) EmptyString).
    change squote with (String (ascii_of_nat 39) EmptyString).
    rewrite endswith_quoted, startswith_same, startswith_other by discriminate.
    split; reflexivity.
Qed.

(** ** The shape of exported data *)

(** X16: [_export_value] keeps the shape of containers.  A list is exported
    item by item into a list of the same length; a dictionary is exported
    value by value into a dictionary with the same keys in the same order; a
    tuple is returned as it is, so an instance inside a tuple is not
    exported. *)
Theorem X16_export_keeps_shape dict_of :
  (forall l t e,
     _export_value dict_of (VList l) = (t, Ok e) ->
     exists l', e = VList l' /\
       Forall2 (fun x y => exists t', _export_value dict_of x = (t', Ok y)) l l') /\
  (forall kvs t e,
     _export_value dict_of (VDict kvs) = (t, Ok e) ->
     exists kvs', e = VDict kvs' /\ map fst kvs' = map fst kvs /\
       Forall2 (fun x y => exists t', _export_value dict_of x = (t', Ok y))
         (map snd kvs) (map snd kvs')) /\
  (forall l, _export_value dict_of (VTuple l) = ret (VTuple l)).
Proof.
  repeat split.
  - intros l t e Hrun. cbn [_export_value] in Hrun.
    apply bind_Ok in Hrun as (t1 & r & t2 & Hmap & Hret & _).
    unfold ret in Hret. injection Hret as _ <-.
    exists r. split; [reflexivity |]. apply mapM_Ok_inv in Hmap. exact Hmap.
  - intros kvs t e Hrun. cbn [_export_value] in Hrun.
    apply bind_Ok in Hrun as (t1 & r & t2 & Hmap & Hret & _).
    unfold ret in Hret. injection Hret as _ <-.
    exists r. split; [reflexivity |]. apply mapM_Ok_inv in Hmap.
    induction Hmap as [| [k x] [k' y] kvs r [t' Hxy] Hrest [IHk IHv]];
      [split; [reflexivity | constructor] |].
    apply bind_Ok in Hxy as (t3 & e' & t4 & Hx & Hret & _).
    unfold ret in Hret. injection Hret as _ <- <-.
    cbn [map fst snd]. split; [rewrite IHk; reflexivity |].
    constructor; [eauto | exact IHv].
Qed.

Lemma X16_export_keeps_shape_witness :
  exists l',
    VList [VDict [(VStr "__field_defaults__", VDict []); (VStr "__validators__", VDict []);
                  (VStr "v", VInt 1)]; VTuple [VInst "Inner" [("v", VInt 2)]]]
    = VList l' /\
    Forall2
      (fun x y => exists t', _export_value (dict 1 Examples.globals) x = (t', Ok y))
      [VInst "Inner" [("v", VInt 1)]; VTuple [VInst "Inner" [("v", VInt 2)]]] l'.
Proof.
  apply (proj1 (X16_export_keeps_shape (dict 1 Examples.globals))
           [VInst "Inner" [("v", VInt 1)]; VTuple [VInst "Inner" [("v", VInt 2)]]] []).
  vm_compute. reflexivity.
Defined.

(** ** Keys that the shape does not declare, in general *)

(** X17: [__init__] reads the mapping at the fields of the class and nowhere
    else: two mappings that agree on the fields give the same outcome, the
    same instance or the same error after the same calls of validators.  So
    adding, changing or removing a key that is not a field changes nothing. *)
Theorem X17_undeclared_keys_are_not_read fuel globals cls hints data :
  get_type_hints globals cls = Ok hints ->
  (forall data',
     (forall name, name ∈ field_names hints -> data !! name = data' !! name) ->
     __init__ fuel globals cls data = __init__ fuel globals cls data') /\
  (forall key value,
     key ∉ field_names hints ->
     __init__ fuel globals cls (<[key := value]> data) = __init__ fuel globals cls data /\
     __init__ fuel globals cls (delete key data) = __init__ fuel globals cls data).
Proof.
  intros Hhints.
  assert (Hagree : forall data1 data2,
             (forall name, name ∈ field_names hints -> data1 !! name = data2 !! name) ->
             __init__ fuel globals cls data1 = __init__ fuel globals cls data2).
  { intros data1 data2 H. apply init_ignores_undeclared_keys.
    intros hints' name Hh Hin. rewrite Hhints in Hh. injection Hh as <-. apply H, Hin. }
  split; [apply Hagree |].
  intros key value Hkey. split; apply Hagree; intros name Hin.
  - apply lookup_insert_ne. intros ->. contradiction.
  - apply lookup_delete_ne. intros ->. contradiction.
Qed.

Lemma X17_undeclared_keys_are_not_read_witness :
  __init__ 1 Examples.globals Examples.Inner (<[ "extra" := VInt 9 ]> {[ "v" := VInt 1 ]})
  = __init__ 1 Examples.globals Examples.Inner {[ "v" := VInt 1 ]}.
Proof.
  assert (Hhints : get_type_hints Examples.globals Examples.Inner
                   = Ok (cls_annotations BaseModel ++ [("v", HPlain "int")]))
    by (vm_compute; reflexivity).
  apply (proj2 (X17_undeclared_keys_are_not_read 1 Examples.globals Examples.Inner _
                  {[ "v" := VInt 1 ]} Hhints) "extra" (VInt 9)).
  cbn. intros H. apply elem_of_cons in H as [H | H]; [discriminate H | inversion H].
Defined.

(** ** Sequences: tuples and mappings as input *)

(** X18: for a sequence hint whose element type selects no branch of the
    coercion, every value that can be iterated is turned into the list of the
    items it iterates over: a tuple becomes a list with the same items, and a
    mapping becomes the list of its keys, its values being dropped without an
    error. *)
Theorem X18_iterables_become_lists globals parse origin T rest value xs :
  origin_in_sequences (Some origin) = true ->
  descriptor_kind T = DScalar ->
  iterate value = ret xs ->
  _coerce_type globals parse (HAlias origin (T :: rest)) value = ret (VList xs) /\
  (forall l, value = VTuple l -> xs = l) /\
  (forall kvs, value = VDict kvs -> xs = map fst kvs).
Proof.
  intros Ho HT Hiter. repeat split.
  - rewrite coerce_sequence by exact Ho. rewrite Hiter, bind_ret_l.
    rewrite (mapM_ret _ (fun x => x)).
    + rewrite bind_ret_l, map_id. reflexivity.
    + intros x _. apply coerce_scalar. exact HT.
  - intros l ->. cbn in Hiter. injection Hiter as <-. reflexivity.
  - intros kvs ->. cbn in Hiter. injection Hiter as <-. reflexivity.
Qed.

Lemma X18_iterables_become_lists_witness :
  _coerce_type Examples.globals (parse_obj 1 Examples.globals)
    (HAlias OList [HPlain "str"]) (VDict [(VStr "a", VInt 1); (VStr "b", VInt 2)])
  = ret (VList [VStr "a"; VStr "b"]).
Proof.
  apply (X18_iterables_become_lists Examples.globals (parse_obj 1 Examples.globals)
           OList (HPlain "str") [] (VDict [(VStr "a", VInt 1); (VStr "b", VInt 2)])
           [VStr "a"; VStr "b"]); reflexivity.
Defined.
